(** * Dijkstra's algorithm on a weighted graph (task_3.py)

    A shallow embedding of the [Graph] class and of the [dijkstra] function
    of [task_3.py], followed by the properties of the shortest-path query.

    Modelling choices, all read off the source:
    - vertices are Python strings, weights are Python integers ([Z]);
    - [Graph.edges] is a [defaultdict(dict)]: a finite map from a vertex to
      its adjacency record, itself a finite map from a neighbour to a weight;
      a lookup of a missing key stores an empty record under that key;
    - [Graph.nodes] is a set of vertices;
    - a distance is either an integer or [float('infinity')];
    - [heapq] is used through [heappush] and [heappop] only, on tuples
      [(distance, vertex)]; what the program observes of the heap is that
      [heappop] removes and returns the least tuple, so the heap is a bag of
      entries stored as a list;
    - [.items()] enumerates the entries of an adjacency record, each key
      once; [map_to_list] stands for this enumeration, and the lemmas on the
      [for] loop are proved for an arbitrary list of entries: the proofs use
      which entries are enumerated, not their order;
    - a dictionary subscript on a missing key raises [KeyError];
    - operations that mutate the graph return the new graph, and the query
      returns its outcome together with the graph as it leaves it. *)

From stdpp Require Import gmap strings list fin_maps.
From Stdlib Require Import ZArith Lia.

Local Open Scope Z_scope.

(** ** Data model *)

(** The value of [distances[v]]: an integer, or [float('infinity')]. *)
Inductive dist : Type :=
| Finite (d : Z)
| Infinity.

Global Instance dist_eq_dec : EqDecision dist.
Proof. solve_decision. Defined.

(** The only exception the module can raise: a subscript on a plain [dict]
    whose key is missing. *)
Inductive exn : Type :=
| KeyError (key : string).

Inductive result (A : Type) : Type :=
| Ok (a : A)
| Raise (e : exn).
Arguments Ok {A} a.
Arguments Raise {A} e.

(** [class Graph]: [self.edges = defaultdict(dict)], [self.nodes = set()]. *)
Record Graph : Type := mkGraph {
  edges : gmap string (gmap string Z);
  nodes : gset string
}.

(** [Graph.__init__] *)
Definition new_graph : Graph := mkGraph ∅ ∅.

(** [Graph.add_node]: [self.nodes.add(node)]. *)
Definition add_node (g : Graph) (node : string) : Graph :=
  mkGraph (edges g) ({[node]} ∪ nodes g).

(** [self.edges[u][v] = weight] on a [defaultdict(dict)]: the record of [u]
    is fetched (an empty one is created when [u] is missing) and its entry
    for [v] is set. *)
Definition set_weight (e : gmap string (gmap string Z)) (u v : string) (weight : Z)
  : gmap string (gmap string Z) :=
  <[u := <[v := weight]> (default ∅ (e !! u))]> e.

(** [Graph.add_edge]: the two assignments, in the order of the source. *)
Definition add_edge (g : Graph) (u v : string) (weight : Z) : Graph :=
  mkGraph (set_weight (set_weight (edges g) u v weight) v u weight) (nodes g).

(** [Graph.get_neighbors]: [return self.edges[node]].  The lookup goes
    through the [defaultdict]: a missing [node] gets an empty record, which
    stays in the graph. *)
Definition get_neighbors (g : Graph) (node : string) : gmap string Z * Graph :=
  match edges g !! node with
  | Some record => (record, g)
  | None => (∅, mkGraph (<[node := ∅]> (edges g)) (nodes g))
  end.

(** ** The priority queue *)

Definition entry : Type := Z * string.

(** Python's order on the tuples [(distance, vertex)]: by distance, then by
    vertex name. *)
Definition entry_leb (a b : entry) : bool :=
  (a.1 <? b.1) || ((a.1 =? b.1) && String.leb a.2 b.2).

Definition heappush (h : list entry) (x : entry) : list entry := x :: h.

(** [heapq.heappop]: the least entry and the remaining ones; [None] stands
    for the empty heap, on which the loop condition [while heap] fails. *)
Fixpoint heappop (h : list entry) : option (entry * list entry) :=
  match h with
  | [] => None
  | x :: h' =>
      match heappop h' with
      | None => Some (x, [])
      | Some (m, rest) =>
          if entry_leb x m then Some (x, h') else Some (m, x :: rest)
      end
  end.

(** ** The shortest-path query *)

(** [distance < distances[neighbor]], an integer against a table value. *)
Definition dist_ltb (distance : Z) (old : dist) : bool :=
  match old with
  | Finite d => distance <? d
  | Infinity => true
  end.

(** The local variables of [dijkstra] that the loop updates. *)
Record locals : Type := mkLocals {
  distances : gmap string dist;
  heap : list entry;
  visited : gset string
}.

(** The [for neighbor, weight in ... .items()] loop over the entries of the
    adjacency record of the current vertex. *)
Fixpoint relax (vis : gset string) (current_distance : Z)
    (items : list (string * Z)) (ds : gmap string dist) (h : list entry)
  : result (gmap string dist * list entry) :=
  match items with
  | [] => Ok (ds, h)
  | (neighbor, weight) :: rest =>
      if decide (neighbor ∈ vis) then relax vis current_distance rest ds h
      else
        let distance := current_distance + weight in
        match ds !! neighbor with
        | None => Raise (KeyError neighbor)
        | Some old =>
            if dist_ltb distance old
            then relax vis current_distance rest
                   (<[neighbor := Finite distance]> ds)
                   (heappush h (distance, neighbor))
            else relax vis current_distance rest ds h
        end
  end.

(** What one evaluation of the [while heap:] loop does. *)
Inductive step_result : Type :=
| Return (table : gmap string dist)
| Continue (l : locals)
| Abort (e : exn).

(** The loop test and one pass through the loop body; the graph is threaded
    because [get_neighbors] may extend it. *)
Definition loop_body (g : Graph) (l : locals) : step_result * Graph :=
  match heappop (heap l) with
  | None => (Return (distances l), g)
  | Some ((current_distance, current), h1) =>
      if decide (current ∈ visited l)
      then (Continue (mkLocals (distances l) h1 (visited l)), g)
      else
        let vis1 := {[current]} ∪ visited l in
        let '(record, g1) := get_neighbors g current in
        match relax vis1 current_distance (map_to_list record) (distances l) h1 with
        | Raise e => (Abort e, g1)
        | Ok (ds1, h2) => (Continue (mkLocals ds1 h2 vis1), g1)
        end
  end.

(** The [while] loop, bounded by [fuel] passes; [None] means that the
    bound was reached. *)
Fixpoint while_heap (fuel : nat) (g : Graph) (l : locals)
  : option (result (gmap string dist) * Graph) :=
  match fuel with
  | O => None
  | S fuel' =>
      match loop_body g l with
      | (Return table, g') => Some (Ok table, g')
      | (Abort e, g') => Some (Raise e, g')
      | (Continue l', g') => while_heap fuel' g' l'
      end
  end.

(** The statements before the loop. *)
Definition init_locals (g : Graph) (start : string) : locals :=
  mkLocals (<[start := Finite 0]> (gset_to_gmap Infinity (nodes g)))
           [(0, start)] ∅.

(** Number of adjacency entries of the vertices not yet visited: a bound
    on the pushes still to come. *)
Definition pending (e : gmap string (gmap string Z)) (vis : gset string) : nat :=
  map_fold (λ u record acc, if decide (u ∈ vis) then acc else (size record + acc)%nat)
           O e.

Definition measure (g : Graph) (l : locals) : nat :=
  (length (heap l) + pending (edges g) (visited l))%nat.

(** [dijkstra(graph, start)]: the outcome (a table or an exception) and the
    graph as the call leaves it.  The loop runs with a number of passes that
    always suffices (see [dijkstra_terminates]). *)
Definition dijkstra (g : Graph) (start : string)
  : option (result (gmap string dist) * Graph) :=
  while_heap (S (measure g (init_locals g start))) g (init_locals g start).

(** The graph built by [main]. *)
Definition main_graph : Graph :=
  let g := foldl add_node new_graph ["A"; "B"; "C"; "D"; "E"] in
  foldl (λ g '(u, v, w), add_edge g u v w) g
    [("A", "B", 4); ("A", "C", 2); ("B", "C", 1); ("B", "D", 5);
     ("C", "D", 8); ("C", "E", 10); ("D", "E", 2)].

(** ** Vocabulary of the properties *)

(** [adjacency[u][v]], when both keys exist. *)
Definition weight (g : Graph) (u v : string) : option Z :=
  edges g !! u ≫= λ record, record !! v.

(** The adjacency record of a vertex, read without touching the graph. *)
Definition neighbors (g : Graph) (u : string) : gmap string Z :=
  default ∅ (edges g !! u).

(** [path g s v d]: some walk along stored edges leads from [s] to [v] and
    its weights add up to [d]. *)
Inductive path (g : Graph) (s : string) : string → Z → Prop :=
| path_here : path g s s 0
| path_step u v w d :
    path g s u d → weight g u v = Some w → path g s v (d + w).

Definition reachable (g : Graph) (s v : string) : Prop := ∃ d, path g s v d.

(** [d] is the least total weight of a walk from [s] to [v]. *)
Definition shortest (g : Graph) (s v : string) (d : Z) : Prop :=
  path g s v d ∧ ∀ d', path g s v d' → d ≤ d'.

Definition nonneg_weights (g : Graph) : Prop :=
  ∀ u v w, weight g u v = Some w → 0 ≤ w.

Definition endpoints_registered (g : Graph) : Prop :=
  ∀ u v w, weight g u v = Some w → u ∈ nodes g ∧ v ∈ nodes g.

Definition symmetric (g : Graph) : Prop :=
  ∀ u v w, weight g u v = Some w → weight g v u = Some w.

(** The order on table values, [float('infinity')] on top. *)
Definition dist_le (a b : dist) : Prop :=
  match a, b with
  | Finite x, Finite y => x ≤ y
  | _, Infinity => True
  | Infinity, Finite _ => False
  end.

(** Two graphs that answer every neighbour lookup alike: their adjacency
    maps differ at most by empty records. *)
Definition same_adjacency (g g' : Graph) : Prop :=
  ∀ u, neighbors g' u = neighbors g u.

(** [g'] is [g] with empty adjacency records added under some new keys. *)
Definition grown_by_empty_records (g g' : Graph) : Prop :=
  nodes g' = nodes g
  ∧ ∀ u, edges g' !! u = edges g !! u
         ∨ (edges g !! u = None ∧ edges g' !! u = Some ∅).

(** The table [new] is the table [old] with some values lowered: the same
    keys, and under each key a value that is not larger. *)
Definition table_le (new old : gmap string dist) : Prop :=
  ∀ v, match old !! v, new !! v with
       | Some d, Some d' => dist_le d' d
       | None, None => True
       | _, _ => False
       end.

(** [steps g l g' l']: the loop, started with the graph [g] and the locals
    [l], is after some passes (possibly none) at the graph [g'] and the
    locals [l']. *)
Inductive steps (g : Graph) (l : locals) : Graph → locals → Prop :=
| steps_here : steps g l g l
| steps_next g1 l1 g2 l2 :
    steps g l g1 l1 → loop_body g1 l1 = (Continue l2, g2) → steps g l g2 l2.

(** The invariant of the loop on a graph with non-negative weights.
    [vis] is the visited set and [done] the vertices whose adjacency record
    has been relaxed; the two coincide between passes, and differ by the
    current vertex during the [for] loop. *)
Record opt_inv (g : Graph) (start : string) (ds : gmap string dist)
    (h : list entry) (vis done : gset string) : Prop := {
  oi_start : ds !! start = Some (Finite 0);
  oi_sound : ∀ v d, ds !! v = Some (Finite d) → path g start v d;
  oi_heap : ∀ d v, (d, v) ∈ h →
    path g start v d ∧ ∃ d', ds !! v = Some (Finite d') ∧ d' ≤ d;
  oi_final : ∀ v, v ∈ vis →
    ∃ d, ds !! v = Some (Finite d) ∧ ∀ d', path g start v d' → d ≤ d';
  oi_relaxed : ∀ u v w du,
    u ∈ done → ds !! u = Some (Finite du) → weight g u v = Some w →
    ∃ dv, ds !! v = Some (Finite dv) ∧ dv ≤ du + w;
  oi_queued : ∀ v d, v ∉ vis → ds !! v = Some (Finite d) → (d, v) ∈ h;
  oi_done : done ⊆ vis
}.

(** The part of the invariant that holds whatever the weights are: which
    vertices have a finite table value. *)
Record reach_inv (g : Graph) (start : string) (ds : gmap string dist)
    (h : list entry) (vis done : gset string) : Prop := {
  ri_start : ∃ d, ds !! start = Some (Finite d);
  ri_heap : ∀ d v, (d, v) ∈ h → ∃ d', ds !! v = Some (Finite d');
  ri_visited : ∀ v, v ∈ vis → ∃ d, ds !! v = Some (Finite d);
  ri_relaxed : ∀ u v w,
    u ∈ done → weight g u v = Some w → ∃ d, ds !! v = Some (Finite d);
  ri_queued : ∀ v d, v ∉ vis → ds !! v = Some (Finite d) → (d, v) ∈ h;
  ri_sound : ∀ v d, ds !! v = Some (Finite d) → reachable g start v
}.

(** Every edge leads to a vertex that has a table entry. *)
Definition targets_in_table (g : Graph) (ds : gmap string dist) : Prop :=
  ∀ u v w, weight g u v = Some w → is_Some (ds !! v).

(** Small graphs on which the properties are exercised. *)

(** One registered vertex ["A"], no edge. *)
Definition lone_graph : Graph := add_node new_graph "A".

(** Two registered vertices joined by an edge of weight 1. *)
Definition pair_graph : Graph :=
  add_edge (add_node (add_node new_graph "A") "B") "A" "B" 1.

(** The locals of the query on [pair_graph] from ["A"] after one pass. *)
Definition pair_locals1 : locals :=
  mkLocals (<["B" := Finite 1]> (distances (init_locals pair_graph "A")))
           [(1, "B")] {["A"]}.

(** The locals of the same query after two passes. *)
Definition pair_locals2 : locals :=
  mkLocals (distances pair_locals1) [] {["B"; "A"]}.

(** ["A"] is registered, its neighbour ["B"] is not. *)
Definition dangling_graph : Graph := add_edge (add_node new_graph "A") "A" "B" 1.

(** Every finite table value and every heap entry is the weight of a walk
    from the start. *)
Definition walk_inv (g : Graph) (start : string)
    (ds : gmap string dist) (h : list entry) : Prop :=
  (∀ v d, ds !! v = Some (Finite d) → path g start v d)
  ∧ (∀ d v, (d, v) ∈ h → path g start v d).

(** The start vertex has the value 0 and either is visited already or is
    the only entry of the heap, as before the first pass. *)
Definition start_settled (start : string) (l : locals) : Prop :=
  distances l !! start = Some (Finite 0)
  ∧ (start ∈ visited l ∨ (heap l = [(0, start)] ∧ visited l = ∅)).

(** * Properties *)

(** Settles a decidable closed proposition by evaluating its decision. *)
Ltac decide_by_compute :=
  match goal with
  | |- ?P => apply (@bool_decide_unpack P _); vm_compute; exact I
  end.

(** ** The priority queue *)

Lemma heappop_None (h : list entry) : heappop h = None ↔ h = [].
Proof.
  destruct h as [|x h]; simpl; [done|].
  split; [|done]. destruct (heappop h) as [[m r]|]; [|done].
  by destruct (entry_leb x m).
Qed.

Lemma entry_leb_fst (a b : entry) : entry_leb a b = true → a.1 ≤ b.1.
Proof. unfold entry_leb. intros H. lia. Qed.

Lemma entry_leb_false_fst (a b : entry) : entry_leb a b = false → b.1 ≤ a.1.
Proof. unfold entry_leb. intros H. lia. Qed.

(** The popped entry comes from the heap, the rest is what remains, and no
    entry of the heap has a smaller distance. *)
Lemma heappop_Some (h : list entry) m r :
  heappop h = Some (m, r) → h ≡ₚ m :: r ∧ ∀ y, y ∈ h → m.1 ≤ y.1.
Proof.
  revert m r. induction h as [|x h IH]; intros m r; simpl; [done|].
  destruct (heappop h) as [[m' r']|] eqn:Hpop.
  - destruct (IH m' r' eq_refl) as [Hperm Hmin].
    destruct (entry_leb x m') eqn:Hle; intros [= <- <-].
    + split; [done|]. intros y [->|Hy]%elem_of_cons; [lia|].
      apply entry_leb_fst in Hle. specialize (Hmin y Hy). lia.
    + split.
      * rewrite Hperm. apply perm_swap.
      * intros y [->|Hy]%elem_of_cons; [by apply entry_leb_false_fst|by apply Hmin].
  - apply heappop_None in Hpop as ->. intros [= <- <-]. split; [done|].
    intros y [->|Hy]%elem_of_cons; [lia|]. by apply elem_of_nil in Hy.
Qed.

Lemma heappop_elem_of h m r y :
  heappop h = Some (m, r) → y ∈ h ↔ y = m ∨ y ∈ r.
Proof.
  intros [Hperm _]%heappop_Some. rewrite Hperm. apply elem_of_cons.
Qed.

Lemma heappop_length h m r :
  heappop h = Some (m, r) → length h = S (length r).
Proof. intros [Hperm _]%heappop_Some. by rewrite Hperm. Qed.

(** ** Reading the graph *)

Lemma weight_neighbors g u v : weight g u v = neighbors g u !! v.
Proof.
  unfold weight, neighbors. destruct (edges g !! u); simpl; [done|].
  by rewrite lookup_empty.
Qed.

Lemma get_neighbors_fst g u : (get_neighbors g u).1 = neighbors g u.
Proof. unfold get_neighbors, neighbors. by destruct (edges g !! u). Qed.

Lemma neighbors_get_neighbors g u v :
  neighbors (get_neighbors g u).2 v = neighbors g v.
Proof.
  unfold get_neighbors, neighbors.
  destruct (edges g !! u) eqn:Hu; simpl; [done|].
  destruct (decide (u = v)) as [->|Hne].
  - by rewrite lookup_insert_eq, Hu.
  - by rewrite lookup_insert_ne.
Qed.

Lemma same_adjacency_refl g : same_adjacency g g.
Proof. done. Qed.

Lemma same_adjacency_get_neighbors g g1 u :
  same_adjacency g g1 → same_adjacency g (get_neighbors g1 u).2.
Proof. intros Ha v. by rewrite neighbors_get_neighbors. Qed.

Lemma same_adjacency_weight g g' u v :
  same_adjacency g g' → weight g' u v = weight g u v.
Proof. intros Ha. by rewrite !weight_neighbors, Ha. Qed.

Lemma grown_refl g : grown_by_empty_records g g.
Proof. split; [done|]. by left. Qed.

Lemma grown_trans g1 g2 g3 :
  grown_by_empty_records g1 g2 → grown_by_empty_records g2 g3 →
  grown_by_empty_records g1 g3.
Proof.
  intros [Hn12 H12] [Hn23 H23]. split; [congruence|]. intros u.
  destruct (H12 u) as [E12|[N1 E2]], (H23 u) as [E23|[N2 E3]].
  - left. congruence.
  - right. split; congruence.
  - right. split; congruence.
  - congruence.
Qed.

Lemma grown_get_neighbors g u : grown_by_empty_records g (get_neighbors g u).2.
Proof.
  unfold get_neighbors. destruct (edges g !! u) eqn:Hu; simpl; [apply grown_refl|].
  split; [done|]. intros v. simpl. destruct (decide (u = v)) as [<-|Hne].
  - right. by rewrite lookup_insert_eq.
  - left. by rewrite lookup_insert_ne.
Qed.

Lemma grown_same_adjacency g g' :
  grown_by_empty_records g g' → same_adjacency g g'.
Proof.
  intros [_ H] u. unfold neighbors. destruct (H u) as [->|[-> ->]]; done.
Qed.

(** ** Termination of the loop *)

Lemma pending_insert e vis u record :
  e !! u = None →
  pending (<[u := record]> e) vis
  = if decide (u ∈ vis) then pending e vis else (size record + pending e vis)%nat.
Proof.
  intros Hu. unfold pending. rewrite map_fold_insert_L; [done| |done].
  intros j1 j2 z1 z2 y _ _ _. repeat case_decide; lia.
Qed.

Lemma pending_ext e vis vis' :
  (∀ u, is_Some (e !! u) → u ∈ vis ↔ u ∈ vis') → pending e vis = pending e vis'.
Proof.
  induction e as [|u record e Hu IH] using map_ind; intros Hiff; [done|].
  rewrite !pending_insert by done.
  assert (pending e vis = pending e vis') as ->.
  { apply IH. intros k Hk. apply Hiff. rewrite lookup_insert_ne; [done|].
    intros ->. rewrite Hu in Hk. by destruct Hk. }
  specialize (Hiff u). rewrite lookup_insert_eq in Hiff.
  destruct Hiff as [Hto Hfrom]; [by eexists|].
  repeat case_decide; try done; exfalso; auto.
Qed.

Lemma pending_visit e vis u record :
  e !! u = Some record → u ∉ vis →
  pending e vis = (size record + pending e ({[u]} ∪ vis))%nat.
Proof.
  intros Hu Hvis. rewrite <- (insert_delete_id e u record Hu).
  rewrite !pending_insert by apply lookup_delete_eq.
  rewrite decide_False by done. rewrite decide_True by set_solver.
  f_equal. apply pending_ext. intros k Hk.
  assert (k ≠ u) by (intros ->; rewrite lookup_delete_eq in Hk; by destruct Hk).
  rewrite elem_of_union, elem_of_singleton. split; [by right|by intros [?|?]].
Qed.

Lemma pending_visit_missing e vis u :
  e !! u = None → pending (<[u := ∅]> e) ({[u]} ∪ vis) = pending e vis.
Proof.
  intros Hu. rewrite pending_insert by done. rewrite decide_True by set_solver.
  apply pending_ext. intros k Hk.
  assert (k ≠ u) by (intros ->; rewrite Hu in Hk; by destruct Hk).
  rewrite elem_of_union, elem_of_singleton. split; [by intros [?|?]|by right].
Qed.

Lemma relax_length vis cd items : ∀ ds h ds' h',
  relax vis cd items ds h = Ok (ds', h') →
  (length h' ≤ length h + length items)%nat.
Proof.
  induction items as [|[v w] items IH]; intros ds h ds' h'; simpl.
  - intros [= <- <-]. lia.
  - case_decide; [intros ?%IH; lia|].
    destruct (ds !! v) as [old|]; [|done].
    destruct (dist_ltb (cd + w) old); intros ?%IH; simpl in *; lia.
Qed.

(** A pass that continues makes the measure smaller. *)
Lemma loop_body_measure g l l' g' :
  loop_body g l = (Continue l', g') → (measure g' l' < measure g l)%nat.
Proof.
  unfold loop_body, measure.
  destruct (heappop (heap l)) as [[[cd cur] h1]|] eqn:Hpop; [|done].
  apply heappop_length in Hpop.
  case_decide as Hvis.
  { intros [= <- <-]. simpl. lia. }
  unfold get_neighbors.
  destruct (edges g !! cur) as [record|] eqn:Hcur.
  - destruct (relax _ _ _ _ _) as [[ds1 h2]|] eqn:Hrelax; [|done].
    intros [= <- <-]. simpl. apply relax_length in Hrelax.
    rewrite length_map_to_list in Hrelax.
    rewrite (pending_visit _ _ _ _ Hcur Hvis). lia.
  - rewrite map_to_list_empty. simpl. intros [= <- <-]. simpl.
    rewrite pending_visit_missing by done. lia.
Qed.

(** With a bound above the measure the loop ends, by [return] or by an
    exception. *)
Lemma while_heap_terminates fuel : ∀ g l,
  (measure g l < fuel)%nat → ∃ r g', while_heap fuel g l = Some (r, g').
Proof.
  induction fuel as [|fuel IH]; intros g l Hlt; [lia|]. simpl.
  destruct (loop_body g l) as [[table|l'|e] g'] eqn:Hbody; [by eauto| |by eauto].
  apply loop_body_measure in Hbody. apply IH. lia.
Qed.

Lemma dijkstra_terminates g start : ∃ r g', dijkstra g start = Some (r, g').
Proof. apply while_heap_terminates. lia. Qed.

(** ** The relaxation loop *)

Lemma dist_le_refl d : dist_le d d.
Proof. destruct d; simpl; [lia|done]. Qed.

Lemma dist_le_trans a b c : dist_le a b → dist_le b c → dist_le a c.
Proof. destruct a, b, c; simpl; try done; lia. Qed.

Lemma dist_ltb_le distance old :
  dist_ltb distance old = true → dist_le (Finite distance) old.
Proof. destruct old; simpl; [lia|done]. Qed.

Lemma table_le_refl ds : table_le ds ds.
Proof. intros v. destruct (ds !! v); [apply dist_le_refl|done]. Qed.

Lemma table_le_trans a b c : table_le a b → table_le b c → table_le a c.
Proof.
  intros Hab Hbc v. specialize (Hab v). specialize (Hbc v).
  destruct (a !! v), (b !! v), (c !! v); try done.
  by eapply dist_le_trans.
Qed.

Lemma table_le_insert ds v distance old :
  ds !! v = Some old → dist_ltb distance old = true →
  table_le (<[v := Finite distance]> ds) ds.
Proof.
  intros Hv Hlt x. destruct (decide (v = x)) as [<-|Hne].
  - rewrite lookup_insert_eq, Hv. by apply dist_ltb_le.
  - rewrite lookup_insert_ne by done. destruct (ds !! x); [apply dist_le_refl|done].
Qed.

Lemma table_le_Some new old v d :
  table_le new old → old !! v = Some d → ∃ d', new !! v = Some d' ∧ dist_le d' d.
Proof.
  intros Hle Hv. specialize (Hle v). rewrite Hv in Hle.
  destruct (new !! v) as [d'|]; [by eauto|done].
Qed.

Lemma table_le_Finite new old v d :
  table_le new old → old !! v = Some (Finite d) →
  ∃ d', new !! v = Some (Finite d') ∧ d' ≤ d.
Proof.
  intros Hle Hv. destruct (table_le_Some _ _ _ _ Hle Hv) as ([d'|] & ? & Hd); [|done].
  by eauto.
Qed.

Lemma table_le_is_Some new old v :
  table_le new old → is_Some (new !! v) ↔ is_Some (old !! v).
Proof.
  intros Hle. specialize (Hle v).
  destruct (old !! v), (new !! v); try done; split; intros [? ?]; done.
Qed.

(** A rule for the [for] loop: a property of the table and the heap that
    every single improvement keeps is kept by the whole loop. *)
Lemma relax_preserves (P : gmap string dist → list entry → Prop) vis cd items :
  (∀ ds h v w old,
      (v, w) ∈ items → v ∉ vis → ds !! v = Some old →
      dist_ltb (cd + w) old = true →
      P ds h → P (<[v := Finite (cd + w)]> ds) ((cd + w, v) :: h)) →
  ∀ ds h ds' h', P ds h → relax vis cd items ds h = Ok (ds', h') → P ds' h'.
Proof.
  induction items as [|[v w] items IH]; intros Hstep ds h ds' h' HP; simpl.
  - by intros [= <- <-].
  - assert (∀ ds h ds' h', P ds h →
              relax vis cd items ds h = Ok (ds', h') → P ds' h') as IH'.
    { apply IH. intros ??????. apply Hstep. by apply list_elem_of_further. }
    case_decide as Hvis; [by apply IH'|].
    destruct (ds !! v) as [old|] eqn:Hv; [|done].
    destruct (dist_ltb (cd + w) old) eqn:Hlt; [|by apply IH'].
    apply IH'. eapply Hstep; eauto. apply list_elem_of_here.
Qed.

(** The loop only lowers table values; it adds and removes no key. *)
Lemma relax_table_le vis cd items ds h ds' h' :
  relax vis cd items ds h = Ok (ds', h') → table_le ds' ds.
Proof.
  apply (relax_preserves (λ ds1 _, table_le ds1 ds)); [|apply table_le_refl].
  intros ds1 h1 v w old _ _ Hv Hlt Hle.
  eapply table_le_trans; [|exact Hle]. by eapply table_le_insert.
Qed.

(** The values of visited vertices are not touched. *)
Lemma relax_visited vis cd items ds h ds' h' x :
  relax vis cd items ds h = Ok (ds', h') → x ∈ vis → ds' !! x = ds !! x.
Proof.
  intros Hrelax Hx. revert Hrelax.
  apply (relax_preserves (λ ds1 _, ds1 !! x = ds !! x)); [|done].
  intros ds1 h1 v w old _ Hv _ _ <-. apply lookup_insert_ne. by intros ->.
Qed.

(** The heap only grows. *)
Lemma relax_heap_incl vis cd items ds h ds' h' x :
  relax vis cd items ds h = Ok (ds', h') → x ∈ h → x ∈ h'.
Proof.
  intros Hrelax Hx. revert Hrelax.
  apply (relax_preserves (λ _ h1, x ∈ h1)); [|done].
  intros ds1 h1 v w old _ _ _ _ ?. by apply list_elem_of_further.
Qed.

(** After the loop every unvisited neighbour is at most one edge further
    than the current vertex. *)
Lemma relax_relaxed vis cd items : ∀ ds h ds' h' v w,
  relax vis cd items ds h = Ok (ds', h') → (v, w) ∈ items → v ∉ vis →
  ∃ d, ds' !! v = Some (Finite d) ∧ d ≤ cd + w.
Proof.
  induction items as [|[v0 w0] items IH]; intros ds h ds' h' v w; simpl.
  { intros _ Hin. by apply elem_of_nil in Hin. }
  intros Hrelax Hin Hv. apply elem_of_cons in Hin as [[= -> ->]|Hin].
  - rewrite decide_False in Hrelax by done.
    destruct (ds !! v0) as [old|] eqn:Hv0; [|done].
    destruct (dist_ltb (cd + w0) old) eqn:Hlt.
    + apply relax_table_le in Hrelax.
      eapply table_le_Finite; [exact Hrelax|]. apply lookup_insert_eq.
    + apply relax_table_le in Hrelax. destruct old as [d|]; [|done]. simpl in Hlt.
      destruct (table_le_Finite _ _ _ _ Hrelax Hv0) as (d' & ? & ?).
      exists d'. split; [done|lia].
  - case_decide; [by eapply IH|].
    destruct (ds !! v0) as [old|]; [|done].
    destruct (dist_ltb (cd + w0) old); by eapply IH.
Qed.

(** No [KeyError] when every neighbour has a table entry. *)
Lemma relax_no_raise vis cd items : ∀ ds h,
  (∀ v w, (v, w) ∈ items → is_Some (ds !! v)) →
  ∃ ds' h', relax vis cd items ds h = Ok (ds', h').
Proof.
  induction items as [|[v w] items IH]; intros ds h Hdom; simpl; [by eauto|].
  assert (∀ ds1 h1, table_le ds1 ds →
            ∃ ds' h', relax vis cd items ds1 h1 = Ok (ds', h')) as IH'.
  { intros ds1 h1 Hle. apply IH. intros x wx Hx.
    apply (table_le_is_Some _ _ x Hle). eapply Hdom. by apply list_elem_of_further. }
  case_decide; [apply IH', table_le_refl|].
  destruct (Hdom v w) as [old Hv]; [apply list_elem_of_here|]. rewrite Hv.
  destruct (dist_ltb (cd + w) old) eqn:Hlt; [|apply IH', table_le_refl].
  apply IH'. by eapply table_le_insert.
Qed.

Lemma table_le_None new old v :
  table_le new old → new !! v = None → old !! v = None.
Proof.
  intros Hle Hv. specialize (Hle v). rewrite Hv in Hle. by destruct (old !! v).
Qed.

(** A [KeyError] names an unvisited neighbour that has no table entry. *)
Lemma relax_raise vis cd items : ∀ ds h key,
  relax vis cd items ds h = Raise (KeyError key) →
  ∃ wk, (key, wk) ∈ items ∧ (key ∉ vis) ∧ ds !! key = None.
Proof.
  induction items as [|[v w] items IH]; intros ds h key; simpl; [done|].
  assert (∀ ds1 h1, table_le ds1 ds →
            relax vis cd items ds1 h1 = Raise (KeyError key) →
            ∃ wk, (key, wk) ∈ (v, w) :: items ∧ (key ∉ vis) ∧ ds !! key = None) as IH'.
  { intros ds1 h1 Hle (wk & Hin & Hvis & Hnone)%IH.
    exists wk. split; [by apply list_elem_of_further|]. split; [done|].
    by eapply table_le_None. }
  case_decide as Hvis; [apply IH', table_le_refl|].
  destruct (ds !! v) as [old|] eqn:Hv.
  - destruct (dist_ltb (cd + w) old) eqn:Hlt; [|apply IH', table_le_refl].
    apply IH'. by eapply table_le_insert.
  - intros [= <-]. exists w. split; [apply list_elem_of_here|]. done.
Qed.

(** One pass of the main loop only lowers table values. *)
Lemma loop_body_table_le g l l' g' :
  loop_body g l = (Continue l', g') → table_le (distances l') (distances l).
Proof.
  unfold loop_body.
  destruct (heappop (heap l)) as [[[cd cur] h1]|]; [|done].
  case_decide.
  { intros [= <- <-]. apply table_le_refl. }
  destruct (get_neighbors g cur) as [record g1].
  destruct (relax _ _ _ _ _) as [[ds1 h2]|] eqn:Hrelax; [|done].
  intros [= <- <-]. simpl. by eapply relax_table_le.
Qed.

(** The entries that the [for] loop iterates over are the edges that leave
    the current vertex. *)
Lemma get_neighbors_items g g1 cur record g2 :
  same_adjacency g g1 → get_neighbors g1 cur = (record, g2) →
  same_adjacency g g2 ∧ ∀ v w, (v, w) ∈ map_to_list record ↔ weight g cur v = Some w.
Proof.
  intros Hsame Hget. split.
  - replace g2 with (get_neighbors g1 cur).2 by (by rewrite Hget).
    by apply same_adjacency_get_neighbors.
  - intros v w. rewrite elem_of_map_to_list, weight_neighbors.
    replace record with (get_neighbors g1 cur).1 by (by rewrite Hget).
    by rewrite get_neighbors_fst, Hsame.
Qed.

Lemma targets_in_table_le g new old :
  table_le new old → targets_in_table g old → targets_in_table g new.
Proof.
  intros Hle Hold u v w Hw. apply (table_le_is_Some _ _ v Hle). by eapply Hold.
Qed.

(** ** Correctness on non-negative weights *)

Section optimal.
Variable g : Graph.
Variable start : string.
Hypothesis Hnonneg : nonneg_weights g.

Lemma path_nonneg v d : path g start v d → 0 ≤ d.
Proof.
  induction 1 as [|u v w d _ IH Hw]; [lia|]. apply Hnonneg in Hw. lia.
Qed.

Lemma opt_inv_init :
  opt_inv g start (distances (init_locals g start))
    (heap (init_locals g start)) (visited (init_locals g start)) ∅.
Proof.
  split; simpl.
  - apply lookup_insert_eq.
  - intros v d. destruct (decide (start = v)) as [<-|Hne].
    + rewrite lookup_insert_eq. intros [= <-]. constructor.
    + rewrite lookup_insert_ne by done. by intros [_ ?]%lookup_gset_to_gmap_Some.
  - intros d v [[= -> ->]|[]%elem_of_nil]%elem_of_cons.
    split; [constructor|]. exists 0. by rewrite lookup_insert_eq.
  - intros v []%not_elem_of_empty.
  - intros u v w du []%not_elem_of_empty.
  - intros v d _. destruct (decide (start = v)) as [<-|Hne].
    + rewrite lookup_insert_eq. intros [= <-]. apply list_elem_of_here.
    + rewrite lookup_insert_ne by done. by intros [_ ?]%lookup_gset_to_gmap_Some.
  - done.
Qed.

(** A walk from the start either ends in a visited vertex whose value is
    at most the weight of the walk, or passes through an unvisited vertex
    with such a value. *)
Lemma frontier ds h vis v p :
  opt_inv g start ds h vis vis → path g start v p →
  (v ∈ vis ∧ ∃ d, ds !! v = Some (Finite d) ∧ d ≤ p)
  ∨ (∃ x d, (x ∉ vis) ∧ ds !! x = Some (Finite d) ∧ d ≤ p).
Proof.
  intros Hinv. induction 1 as [|u v w p Hpath IH Hw].
  - destruct (decide (start ∈ vis)).
    + left. split; [done|]. exists 0. split; [apply Hinv|lia].
    + right. exists start, 0. split; [done|]. split; [apply Hinv|lia].
  - pose proof (Hnonneg _ _ _ Hw).
    destruct IH as [(Hu & du & Hdu & Hle)|(x & d & Hx & Hd & Hle)].
    + destruct (oi_relaxed _ _ _ _ _ _ Hinv u v w du Hu Hdu Hw) as (dv & Hdv & Hle').
      destruct (decide (v ∈ vis)).
      * left. split; [done|]. exists dv. split; [done|lia].
      * right. exists v, dv. split; [done|]. split; [done|lia].
    + right. exists x, d. split; [done|]. split; [done|lia].
Qed.

(** A stale entry is dropped. *)
Lemma opt_inv_pop_stale ds h vis cd cur h1 :
  opt_inv g start ds h vis vis → heappop h = Some ((cd, cur), h1) →
  cur ∈ vis → opt_inv g start ds h1 vis vis.
Proof.
  intros Hinv Hpop Hcur. destruct Hinv. split; try done.
  - intros d v Hin. apply oi_heap0. apply (heappop_elem_of _ _ _ _ Hpop). by right.
  - intros v d Hv Hd. specialize (oi_queued0 v d Hv Hd).
    apply (heappop_elem_of _ _ _ _ Hpop) in oi_queued0 as [[= -> ->]|?]; done.
Qed.

(** The entry popped for an unvisited vertex carries its table value, and
    this value is the least weight of a walk to the vertex. *)
Lemma opt_inv_pop_fresh ds h vis cd cur h1 :
  opt_inv g start ds h vis vis → heappop h = Some ((cd, cur), h1) →
  cur ∉ vis →
  ds !! cur = Some (Finite cd) ∧ path g start cur cd
  ∧ opt_inv g start ds h1 ({[cur]} ∪ vis) vis.
Proof.
  intros Hinv Hpop Hcur.
  destruct (heappop_Some _ _ _ Hpop) as [Hperm Hmin].
  assert ((cd, cur) ∈ h) as Hin by (rewrite Hperm; apply list_elem_of_here).
  destruct (oi_heap _ _ _ _ _ _ Hinv cd cur Hin) as (Hpath & d' & Hd' & Hle).
  assert (d' = cd) as ->.
  { pose proof (Hmin _ (oi_queued _ _ _ _ _ _ Hinv cur d' Hcur Hd')). simpl in *. lia. }
  split; [done|]. split; [done|]. split.
  - apply Hinv.
  - apply Hinv.
  - intros d v Hdv. apply (oi_heap _ _ _ _ _ _ Hinv).
    apply (heappop_elem_of _ _ _ _ Hpop). by right.
  - intros v [->%elem_of_singleton|Hv]%elem_of_union; [|by apply Hinv].
    exists cd. split; [done|]. intros p Hp.
    destruct (frontier _ _ _ _ _ Hinv Hp) as [[? _]|(x & d & Hx & Hd & Hle')]; [done|].
    pose proof (Hmin _ (oi_queued _ _ _ _ _ _ Hinv x d Hx Hd)). simpl in *. lia.
  - apply Hinv.
  - intros v d Hv Hd.
    pose proof (oi_queued _ _ _ _ _ _ Hinv v d) as Hq.
    apply (heappop_elem_of _ _ _ _ Hpop) in Hq as [[= -> ->]|?];
      [set_solver|done|set_solver|done].
  - pose proof (oi_done _ _ _ _ _ _ Hinv). set_solver.
Qed.

(** One improvement found by the [for] loop keeps the invariant. *)
Lemma opt_inv_improve ds h vis done cd cur v w old :
  opt_inv g start ds h vis done →
  path g start cur cd → weight g cur v = Some w →
  v ∉ vis → ds !! v = Some old → dist_ltb (cd + w) old = true →
  opt_inv g start (<[v := Finite (cd + w)]> ds) ((cd + w, v) :: h) vis done.
Proof.
  intros Hinv Hcur Hw Hv Hold Hlt.
  assert (path g start v (cd + w)) as Hpath by (by econstructor).
  assert (∀ d, ds !! v = Some (Finite d) → cd + w < d) as Hless.
  { intros d Hd. rewrite Hd in Hold. injection Hold as <-. simpl in Hlt. lia. }
  split.
  - destruct (decide (v = start)) as [->|Hne]; [|rewrite lookup_insert_ne; [apply Hinv|done]].
    pose proof (Hless 0 (oi_start _ _ _ _ _ _ Hinv)).
    pose proof (path_nonneg _ _ Hpath). lia.
  - intros x d. destruct (decide (v = x)) as [<-|Hne].
    + rewrite lookup_insert_eq. by intros [= <-].
    + rewrite lookup_insert_ne by done. apply Hinv.
  - intros d x [[= -> ->]|Hin]%elem_of_cons.
    + split; [done|]. exists (cd + w). by rewrite lookup_insert_eq.
    + destruct (oi_heap _ _ _ _ _ _ Hinv d x Hin) as (Hp & d' & Hd' & Hle).
      split; [done|]. destruct (decide (v = x)) as [<-|Hne].
      * exists (cd + w). rewrite lookup_insert_eq. split; [done|].
        specialize (Hless d' Hd'). lia.
      * exists d'. by rewrite lookup_insert_ne.
  - intros x Hx. rewrite lookup_insert_ne by (by intros ->). by apply Hinv.
  - intros u x wx du Hu. pose proof (oi_done _ _ _ _ _ _ Hinv).
    rewrite lookup_insert_ne by (intros ->; set_solver).
    intros Hdu Hwx.
    destruct (oi_relaxed _ _ _ _ _ _ Hinv u x wx du Hu Hdu Hwx) as (dx & Hdx & Hle).
    destruct (decide (v = x)) as [<-|Hne].
    + exists (cd + w). rewrite lookup_insert_eq. split; [done|].
      specialize (Hless dx Hdx). lia.
    + exists dx. by rewrite lookup_insert_ne.
  - intros x d Hx. destruct (decide (v = x)) as [<-|Hne].
    + rewrite lookup_insert_eq. intros [= <-]. apply list_elem_of_here.
    + rewrite lookup_insert_ne by done. intros Hd.
      apply list_elem_of_further. by apply Hinv.
  - apply Hinv.
Qed.

(** When the [for] loop is over, the current vertex counts as relaxed. *)
Lemma opt_inv_close ds h vis cur cd :
  opt_inv g start ds h ({[cur]} ∪ vis) vis →
  ds !! cur = Some (Finite cd) → path g start cur cd →
  (∀ v w, weight g cur v = Some w → v ∉ {[cur]} ∪ vis →
          ∃ d, ds !! v = Some (Finite d) ∧ d ≤ cd + w) →
  opt_inv g start ds h ({[cur]} ∪ vis) ({[cur]} ∪ vis).
Proof.
  intros Hinv Hcur Hpath Hrel. split; try apply Hinv; [|done].
  intros u v w du [->%elem_of_singleton|Hu]%elem_of_union; [|by apply Hinv].
  rewrite Hcur. intros [= <-] Hw.
  destruct (decide (v ∈ {[cur]} ∪ vis)) as [Hv|Hv]; [|by apply Hrel].
  destruct (oi_final _ _ _ _ _ _ Hinv v Hv) as (dv & Hdv & Hopt).
  exists dv. split; [done|]. apply Hopt. by econstructor.
Qed.

(** One pass of the loop keeps the invariant and raises nothing. *)
Lemma loop_body_opt g1 l :
  opt_inv g start (distances l) (heap l) (visited l) (visited l) →
  same_adjacency g g1 → targets_in_table g (distances l) →
  match loop_body g1 l with
  | (Return table, _) => table = distances l ∧ heap l = []
  | (Continue l', g') =>
      opt_inv g start (distances l') (heap l') (visited l') (visited l')
      ∧ same_adjacency g g' ∧ targets_in_table g (distances l')
  | (Abort _, _) => False
  end.
Proof.
  intros Hinv Hsame Hdom. unfold loop_body.
  destruct (heappop (heap l)) as [[[cd cur] h1]|] eqn:Hpop;
    [|by apply heappop_None in Hpop].
  case_decide as Hvis.
  { simpl. split; [by eapply opt_inv_pop_stale|done]. }
  destruct (opt_inv_pop_fresh _ _ _ _ _ _ Hinv Hpop Hvis) as (Hcur & Hpath & Hinv1).
  destruct (get_neighbors g1 cur) as [record g2] eqn:Hget.
  destruct (get_neighbors_items _ _ _ _ _ Hsame Hget) as [Hsame2 Hitems].
  destruct (relax_no_raise ({[cur]} ∪ visited l) cd (map_to_list record)
              (distances l) h1) as (ds1 & h2 & Hrelax).
  { intros v w Hin%Hitems. by eapply Hdom. }
  rewrite Hrelax. simpl.
  pose proof (relax_table_le _ _ _ _ _ _ _ Hrelax) as Hle.
  split; [|split; [done|by eapply targets_in_table_le]].
  apply (opt_inv_close _ _ _ _ cd); [|..|done|].
  - revert Hrelax.
    apply (relax_preserves
             (λ ds h, opt_inv g start ds h ({[cur]} ∪ visited l) (visited l)));
      [|done].
    intros ds h v w old Hin%Hitems Hv Hold Hlt Hi. by eapply opt_inv_improve.
  - rewrite (relax_visited _ _ _ _ _ _ _ cur Hrelax); [done|].
    apply elem_of_union_l. by apply elem_of_singleton.
  - intros v w Hw%Hitems Hv. by eapply relax_relaxed.
Qed.

(** When the loop ends, the table holds the least weight of a walk to
    each vertex that a walk reaches, and nothing finite elsewhere. *)
Lemma while_heap_opt fuel : ∀ g1 l r g',
  opt_inv g start (distances l) (heap l) (visited l) (visited l) →
  same_adjacency g g1 → targets_in_table g (distances l) →
  while_heap fuel g1 l = Some (r, g') →
  ∃ table, r = Ok table
    ∧ (∀ v d, table !! v = Some (Finite d) → path g start v d)
    ∧ (∀ v p, path g start v p → ∃ d, table !! v = Some (Finite d) ∧ d ≤ p).
Proof.
  induction fuel as [|fuel IH]; intros g1 l r g' Hinv Hsame Hdom; simpl; [done|].
  pose proof (loop_body_opt g1 l Hinv Hsame Hdom) as Hbody.
  destruct (loop_body g1 l) as [[table|l'|e] g2]; [|by apply IH; apply Hbody|done].
  destruct Hbody as [-> Hempty]. intros [= <- <-].
  exists (distances l). split; [done|]. split; [apply Hinv|].
  intros v p Hp.
  destruct (frontier _ _ _ _ _ Hinv Hp) as [[_ ?]|(x & d & Hx & Hd & _)]; [done|].
  pose proof (oi_queued _ _ _ _ _ _ Hinv x d Hx Hd) as Hin.
  rewrite Hempty in Hin. by apply elem_of_nil in Hin.
Qed.

End optimal.

(** ** Which vertices the loop reaches, whatever the weights *)

Lemma reachable_start g start : reachable g start start.
Proof. exists 0. constructor. Qed.

Lemma reachable_step g start u v w :
  reachable g start u → weight g u v = Some w → reachable g start v.
Proof. intros [d Hd] Hw. exists (d + w). by econstructor. Qed.

Lemma finite_insert (ds : gmap string dist) v c x :
  (∃ d, ds !! x = Some (Finite d)) →
  ∃ d, <[v := Finite c]> ds !! x = Some (Finite d).
Proof.
  intros [d Hd]. destruct (decide (v = x)) as [<-|Hne].
  - exists c. apply lookup_insert_eq.
  - exists d. by rewrite lookup_insert_ne.
Qed.

Section reached.
Variable g : Graph.
Variable start : string.

Lemma reach_inv_init :
  reach_inv g start (distances (init_locals g start))
    (heap (init_locals g start)) (visited (init_locals g start)) ∅.
Proof.
  assert (∀ v d, <[start := Finite 0]> (gset_to_gmap Infinity (nodes g)) !! v
                 = Some (Finite d) → v = start ∧ d = 0) as Hfin.
  { intros v d. destruct (decide (start = v)) as [<-|Hne].
    - rewrite lookup_insert_eq. by intros [= <-].
    - rewrite lookup_insert_ne by done. by intros [_ ?]%lookup_gset_to_gmap_Some. }
  split; simpl.
  - exists 0. apply lookup_insert_eq.
  - intros d v [[= -> ->]|[]%elem_of_nil]%elem_of_cons.
    exists 0. apply lookup_insert_eq.
  - intros v []%not_elem_of_empty.
  - intros u v w []%not_elem_of_empty.
  - intros v d _ [-> ->]%Hfin. apply list_elem_of_here.
  - intros v d [-> ->]%Hfin. apply reachable_start.
Qed.

Lemma reach_inv_pop_stale ds h vis cd cur h1 :
  reach_inv g start ds h vis vis → heappop h = Some ((cd, cur), h1) →
  cur ∈ vis → reach_inv g start ds h1 vis vis.
Proof.
  intros Hinv Hpop Hcur. split; try apply Hinv.
  - intros d v Hin. apply (ri_heap _ _ _ _ _ _ Hinv d).
    apply (heappop_elem_of _ _ _ _ Hpop). by right.
  - intros v d Hv Hd. pose proof (ri_queued _ _ _ _ _ _ Hinv v d Hv Hd) as Hq.
    apply (heappop_elem_of _ _ _ _ Hpop) in Hq as [[= -> ->]|?]; done.
Qed.

Lemma reach_inv_pop_fresh ds h vis cd cur h1 :
  reach_inv g start ds h vis vis → heappop h = Some ((cd, cur), h1) →
  cur ∉ vis →
  reachable g start cur ∧ reach_inv g start ds h1 ({[cur]} ∪ vis) vis.
Proof.
  intros Hinv Hpop Hcur.
  assert ((cd, cur) ∈ h) as Hin by (apply (heappop_elem_of _ _ _ _ Hpop); by left).
  destruct (ri_heap _ _ _ _ _ _ Hinv cd cur Hin) as [d' Hd'].
  split; [by eapply (ri_sound _ _ _ _ _ _ Hinv)|]. split; try apply Hinv.
  - intros d v Hdv. apply (ri_heap _ _ _ _ _ _ Hinv d).
    apply (heappop_elem_of _ _ _ _ Hpop). by right.
  - intros v [->%elem_of_singleton|Hv]%elem_of_union; [by eauto|by apply Hinv].
  - intros v d Hv Hd.
    pose proof (ri_queued _ _ _ _ _ _ Hinv v d) as Hq.
    apply (heappop_elem_of _ _ _ _ Hpop) in Hq as [[= -> ->]|?];
      [set_solver|done|set_solver|done].
Qed.

Lemma reach_inv_improve ds h vis done cd cur v w :
  reach_inv g start ds h vis done →
  reachable g start cur → weight g cur v = Some w → v ∉ vis →
  reach_inv g start (<[v := Finite (cd + w)]> ds) ((cd + w, v) :: h) vis done.
Proof.
  intros Hinv Hcur Hw Hv. split.
  - apply finite_insert, Hinv.
  - intros d x [[= -> ->]|Hin]%elem_of_cons.
    + exists (cd + w). apply lookup_insert_eq.
    + apply finite_insert. by eapply (ri_heap _ _ _ _ _ _ Hinv).
  - intros x Hx. apply finite_insert. by apply Hinv.
  - intros u x wx Hu Hwx. apply finite_insert. by eapply (ri_relaxed _ _ _ _ _ _ Hinv).
  - intros x d Hx. destruct (decide (v = x)) as [<-|Hne].
    + rewrite lookup_insert_eq. intros [= <-]. apply list_elem_of_here.
    + rewrite lookup_insert_ne by done. intros Hd.
      apply list_elem_of_further. by apply Hinv.
  - intros x d. destruct (decide (v = x)) as [<-|Hne].
    + intros _. by eapply reachable_step.
    + rewrite lookup_insert_ne by done. apply Hinv.
Qed.

Lemma reach_inv_close ds h vis cur :
  reach_inv g start ds h ({[cur]} ∪ vis) vis →
  (∀ v w, weight g cur v = Some w → v ∉ {[cur]} ∪ vis →
          ∃ d, ds !! v = Some (Finite d)) →
  reach_inv g start ds h ({[cur]} ∪ vis) ({[cur]} ∪ vis).
Proof.
  intros Hinv Hrel. split; try apply Hinv.
  intros u v w [->%elem_of_singleton|Hu]%elem_of_union Hw;
    [|by eapply (ri_relaxed _ _ _ _ _ _ Hinv)].
  destruct (decide (v ∈ {[cur]} ∪ vis)) as [Hv|Hv]; [by apply Hinv|by eapply Hrel].
Qed.

(** One pass of the loop: the invariant is kept, and a [KeyError] names
    a vertex that a walk reaches and that the table lacks. *)
Lemma loop_body_reach g1 l :
  reach_inv g start (distances l) (heap l) (visited l) (visited l) →
  same_adjacency g g1 →
  match loop_body g1 l with
  | (Return table, _) => table = distances l ∧ heap l = []
  | (Continue l', g') =>
      reach_inv g start (distances l') (heap l') (visited l') (visited l')
      ∧ same_adjacency g g' ∧ table_le (distances l') (distances l)
  | (Abort (KeyError key), _) =>
      reachable g start key ∧ distances l !! key = None
  end.
Proof.
  intros Hinv Hsame. unfold loop_body.
  destruct (heappop (heap l)) as [[[cd cur] h1]|] eqn:Hpop;
    [|by apply heappop_None in Hpop].
  case_decide as Hvis.
  { simpl. split; [by eapply reach_inv_pop_stale|]. split; [done|apply table_le_refl]. }
  destruct (reach_inv_pop_fresh _ _ _ _ _ _ Hinv Hpop Hvis) as (Hcur & Hinv1).
  destruct (get_neighbors g1 cur) as [record g2] eqn:Hget.
  destruct (get_neighbors_items _ _ _ _ _ Hsame Hget) as [Hsame2 Hitems].
  destruct (relax _ _ _ _ _) as [[ds1 h2]|[key]] eqn:Hrelax.
  - simpl. split; [|split; [done|by eapply relax_table_le]].
    apply reach_inv_close.
    + revert Hrelax.
      apply (relax_preserves
               (λ ds h, reach_inv g start ds h ({[cur]} ∪ visited l) (visited l)));
        [|done].
      intros ds h v w old Hin%Hitems Hv _ _ Hi. by eapply reach_inv_improve.
    + intros v w Hw%Hitems Hv.
      destruct (relax_relaxed _ _ _ _ _ _ _ _ _ Hrelax Hw Hv) as (d & Hd & _). by eauto.
  - apply relax_raise in Hrelax as (wk & Hin%Hitems & _ & Hnone).
    split; [by eapply reachable_step|done].
Qed.

(** The outcome of the loop: a table in which every reached vertex has a
    finite value, or a [KeyError] on a reached vertex without entry. *)
Lemma while_heap_reach fuel : ∀ g1 l r g',
  reach_inv g start (distances l) (heap l) (visited l) (visited l) →
  same_adjacency g g1 →
  while_heap fuel g1 l = Some (r, g') →
  match r with
  | Ok table =>
      table_le table (distances l)
      ∧ ∀ v, reachable g start v → ∃ d, table !! v = Some (Finite d)
  | Raise (KeyError key) => reachable g start key ∧ distances l !! key = None
  end.
Proof.
  induction fuel as [|fuel IH]; intros g1 l r g' Hinv Hsame; simpl; [done|].
  pose proof (loop_body_reach g1 l Hinv Hsame) as Hbody.
  destruct (loop_body g1 l) as [[table|l'|[key]] g2].
  - destruct Hbody as [-> Hempty]. intros [= <- <-].
    split; [apply table_le_refl|].
    assert (∀ v d, distances l !! v = Some (Finite d) → v ∈ visited l) as Hall.
    { intros v d Hd. destruct (decide (v ∈ visited l)) as [|Hv]; [done|].
      pose proof (ri_queued _ _ _ _ _ _ Hinv v d Hv Hd) as Hin.
      rewrite Hempty in Hin. by apply elem_of_nil in Hin. }
    intros v [p Hp]. induction Hp as [|u v w p _ [du Hdu] Hw]; [apply Hinv|].
    eapply (ri_relaxed _ _ _ _ _ _ Hinv); [|exact Hw]. by eapply Hall.
  - destruct Hbody as (Hinv' & Hsame' & Hle). intros Hrun.
    specialize (IH _ _ _ _ Hinv' Hsame' Hrun).
    destruct r as [table|[key]].
    + destruct IH as [Hle' Hall]. split; [by eapply table_le_trans|done].
    + destruct IH as [Hreach Hnone]. split; [done|by eapply table_le_None].
  - by intros [= <- <-].
Qed.

End reached.

(** ** What a query does to the graph, and queries on grown graphs *)

Lemma loop_body_grown g l : grown_by_empty_records g (loop_body g l).2.
Proof.
  unfold loop_body.
  destruct (heappop (heap l)) as [[[cd cur] h1]|]; [|apply grown_refl].
  case_decide; [apply grown_refl|].
  pose proof (grown_get_neighbors g cur) as Hgrown.
  destruct (get_neighbors g cur) as [record g1].
  by destruct (relax _ _ _ _ _) as [[ds1 h2]|e].
Qed.

Lemma while_heap_grown fuel : ∀ g l r g',
  while_heap fuel g l = Some (r, g') → grown_by_empty_records g g'.
Proof.
  induction fuel as [|fuel IH]; intros g l r g'; simpl; [done|].
  pose proof (loop_body_grown g l) as Hgrown.
  destruct (loop_body g l) as [[table|l'|e] g1]; simpl in Hgrown.
  - by intros [= <- <-].
  - intros Hrun%IH. by eapply grown_trans.
  - by intros [= <- <-].
Qed.

(** A pass of the loop reads the graph through neighbour lookups only. *)
Lemma loop_body_same g g1 l :
  same_adjacency g g1 →
  (loop_body g1 l).1 = (loop_body g l).1
  ∧ same_adjacency (loop_body g l).2 (loop_body g1 l).2.
Proof.
  intros Hsame. unfold loop_body.
  destruct (heappop (heap l)) as [[[cd cur] h1]|]; [|done].
  case_decide; [done|].
  pose proof (get_neighbors_fst g cur) as Hfst.
  pose proof (get_neighbors_fst g1 cur) as Hfst1.
  pose proof (neighbors_get_neighbors g cur) as Hsnd.
  pose proof (neighbors_get_neighbors g1 cur) as Hsnd1.
  destruct (get_neighbors g cur) as [record g2].
  destruct (get_neighbors g1 cur) as [record1 g3]. simpl in *.
  assert (record1 = record) as -> by (by rewrite Hfst, Hfst1, Hsame).
  assert (same_adjacency g2 g3) as Hsame'.
  { intros u. by rewrite Hsnd, Hsnd1, Hsame. }
  by destruct (relax _ _ _ _ _) as [[ds1 h2]|e].
Qed.

Lemma while_heap_same fuel : ∀ g g1 l,
  same_adjacency g g1 →
  fst <$> while_heap fuel g1 l = fst <$> while_heap fuel g l.
Proof.
  induction fuel as [|fuel IH]; intros g g1 l Hsame; simpl; [done|].
  destruct (loop_body_same g g1 l Hsame) as [Hfst Hsnd].
  destruct (loop_body g l) as [res g2], (loop_body g1 l) as [res1 g3].
  simpl in *. subst res1. destruct res as [table|l'|e]; [done|by apply IH|done].
Qed.

Lemma while_heap_more_fuel fuel : ∀ fuel' g l x,
  while_heap fuel g l = Some x → (fuel ≤ fuel')%nat → while_heap fuel' g l = Some x.
Proof.
  induction fuel as [|fuel IH]; intros fuel' g l x; simpl; [done|].
  intros Hrun Hle. destruct fuel' as [|fuel']; [lia|]. simpl.
  destruct (loop_body g l) as [[table|l'|e] g1]; [done| |done].
  apply IH; [done|lia].
Qed.

(** ** Reading and writing weights *)

Lemma weight_Some g u v w :
  weight g u v = Some w ↔ ∃ record, edges g !! u = Some record ∧ record !! v = Some w.
Proof. unfold weight. apply bind_Some. Qed.

Lemma lookup_set_weight e u v w a b :
  set_weight e u v w !! a ≫= (λ record, record !! b)
  = if decide (a = u ∧ b = v) then Some w else e !! a ≫= (λ record, record !! b).
Proof.
  unfold set_weight. destruct (decide (a = u)) as [->|Ha].
  - rewrite lookup_insert_eq. simpl. destruct (decide (b = v)) as [->|Hb].
    + rewrite lookup_insert_eq. by rewrite decide_True.
    + rewrite lookup_insert_ne by done. rewrite decide_False by (by intros [_ ?]).
      destruct (e !! u); simpl; [done|apply lookup_empty].
  - rewrite lookup_insert_ne by done. by rewrite decide_False by (by intros [? _]).
Qed.

Lemma weight_add_edge g u v w a b :
  weight (add_edge g u v w) a b
  = if decide ((a = u ∧ b = v) ∨ (a = v ∧ b = u)) then Some w else weight g a b.
Proof.
  unfold weight, add_edge. simpl. rewrite !lookup_set_weight.
  destruct (decide (a = v ∧ b = u)) as [Hvu|Hvu].
  - rewrite decide_True; [done|by right].
  - destruct (decide (a = u ∧ b = v)) as [Huv|Huv].
    + rewrite decide_True; [done|by left].
    + rewrite decide_False; [done|]. by intros [?|?].
Qed.

Lemma set_weight_key e u v w : is_Some (set_weight e u v w !! u).
Proof. unfold set_weight. rewrite lookup_insert_eq. by eexists. Qed.

Lemma set_weight_keys e u v w a : is_Some (e !! a) → is_Some (set_weight e u v w !! a).
Proof.
  unfold set_weight. intros Ha. destruct (decide (u = a)) as [->|Hne].
  - rewrite lookup_insert_eq. by eexists.
  - by rewrite lookup_insert_ne.
Qed.

Lemma symmetric_same_adjacency g g' :
  same_adjacency g g' → symmetric g → symmetric g'.
Proof.
  intros Hsame Hsym u v w. rewrite !(same_adjacency_weight g g') by done. apply Hsym.
Qed.

Lemma symmetric_add_edge g u v w : symmetric g → symmetric (add_edge g u v w).
Proof.
  intros Hsym a b x. rewrite !weight_add_edge.
  destruct (decide ((a = u ∧ b = v) ∨ (a = v ∧ b = u))) as [Hab|Hab].
  - intros ->. rewrite decide_True; [done|]. destruct Hab as [[-> ->]|[-> ->]]; auto.
  - rewrite decide_False; [apply Hsym|]. intros [[-> ->]|[-> ->]]; apply Hab; auto.
Qed.

(** Checks that decide the hypotheses on a given graph. *)
Lemma nonneg_weights_check g :
  map_Forall (λ _ record, map_Forall (λ (_ : string) w, 0 ≤ w) record) (edges g) →
  nonneg_weights g.
Proof.
  intros Hall u v w (record & Hu & Hv)%weight_Some.
  exact (Hall u record Hu v w Hv).
Qed.

Lemma endpoints_registered_check g :
  map_Forall (λ u record,
      u ∈ nodes g ∧ map_Forall (λ v (_ : Z), v ∈ nodes g) record) (edges g) →
  endpoints_registered g.
Proof.
  intros Hall u v w (record & Hu & Hv)%weight_Some.
  destruct (Hall u record Hu) as [Hin Hrec]. split; [done|]. exact (Hrec v w Hv).
Qed.

Lemma init_locals_nodes g g' start :
  nodes g' = nodes g → init_locals g' start = init_locals g start.
Proof. unfold init_locals. by intros ->. Qed.

(** * The claims *)

(** C1. On a graph whose weights are non-negative and whose edge endpoints
    are all registered, the query from a registered start vertex returns a
    table, and the table maps every vertex reachable from the start to the
    least total weight of a walk from the start to it. *)
Theorem dijkstra_shortest_paths g start :
  nonneg_weights g → endpoints_registered g → start ∈ nodes g →
  ∃ table g',
    dijkstra g start = Some (Ok table, g')
    ∧ ∀ v, reachable g start v →
           ∃ d, table !! v = Some (Finite d) ∧ shortest g start v d.
Proof.
  intros Hnonneg Hends Hstart.
  destruct (dijkstra_terminates g start) as (r & g' & Hrun).
  destruct (while_heap_opt g start Hnonneg
              (S (measure g (init_locals g start))) g (init_locals g start) r g'
              (opt_inv_init g start) (same_adjacency_refl g)) as
    (table & -> & Hsound & Hleast); [|exact Hrun|].
  { intros u v w [_ Hv]%Hends. simpl. destruct (decide (start = v)) as [<-|Hne].
    - rewrite lookup_insert_eq. by eexists.
    - rewrite lookup_insert_ne by done. exists Infinity.
      by apply lookup_gset_to_gmap_Some. }
  exists table, g'. split; [done|]. intros v [p Hp].
  destruct (Hleast v p Hp) as (d & Hd & _). exists d. split; [done|].
  split; [by apply Hsound|]. intros d' Hd'.
  destruct (Hleast v d' Hd') as (d2 & Hd2 & Hle). congruence.
Qed.

Lemma dijkstra_shortest_paths_witness :
  ∃ table g',
    dijkstra main_graph "A" = Some (Ok table, g')
    ∧ ∀ v, reachable main_graph "A" v →
           ∃ d, table !! v = Some (Finite d) ∧ shortest main_graph "A" v d.
Proof.
  apply (dijkstra_shortest_paths main_graph "A").
  - apply nonneg_weights_check. decide_by_compute.
  - apply endpoints_registered_check. decide_by_compute.
  - decide_by_compute.
Defined.

(** C2, as the code has it.  An unregistered start vertex is not rejected:
    the query enters it in the table with distance 0 and runs exactly as on
    the graph in which it is registered; when it has no neighbour, the
    query returns the table that maps it to 0 and every registered vertex
    to infinity. *)
Theorem dijkstra_unregistered_start g start :
  start ∉ nodes g →
  fst <$> dijkstra g start = fst <$> dijkstra (add_node g start) start
  ∧ (neighbors g start = ∅ →
     fst <$> dijkstra g start
     = Some (Ok (<[start := Finite 0]> (gset_to_gmap Infinity (nodes g))))).
Proof.
  intros Hstart. split.
  - assert (init_locals (add_node g start) start = init_locals g start) as Hinit.
    { unfold init_locals. f_equal. simpl. apply map_eq. intros v.
      destruct (decide (start = v)) as [<-|Hne]; [by rewrite !lookup_insert_eq|].
      rewrite !lookup_insert_ne by done.
      destruct (gset_to_gmap Infinity (nodes g) !! v) as [d|] eqn:Hv.
      - apply lookup_gset_to_gmap_Some in Hv as [Hv <-].
        apply lookup_gset_to_gmap_Some. split; [by apply elem_of_union_r|done].
      - apply lookup_gset_to_gmap_None in Hv.
        apply lookup_gset_to_gmap_None.
        intros [?%elem_of_singleton|?]%elem_of_union; [congruence|done]. }
    unfold dijkstra. rewrite Hinit. symmetry.
    exact (while_heap_same _ g (add_node g start) _ (same_adjacency_refl g)).
  - intros Hnone. unfold dijkstra, measure. simpl.
    unfold loop_body at 1. simpl.
    assert (map_to_list (get_neighbors g start).1 = []) as Hitems.
    { by rewrite get_neighbors_fst, Hnone, map_to_list_empty. }
    destruct (get_neighbors g start) as [record g1]. simpl in Hitems.
    rewrite Hitems. simpl. destruct (pending (edges g) ∅); done.
Qed.

Lemma dijkstra_unregistered_start_witness :
  fst <$> dijkstra new_graph "A" = fst <$> dijkstra (add_node new_graph "A") "A"
  ∧ (neighbors new_graph "A" = ∅ →
     fst <$> dijkstra new_graph "A"
     = Some (Ok (<["A" := Finite 0]> (gset_to_gmap Infinity (nodes new_graph))))).
Proof.
  apply (dijkstra_unregistered_start new_graph "A").
  decide_by_compute.
Defined.

(** C2, as stated, fails: on the empty graph the query from the
    unregistered vertex ["A"] returns a table. *)
Lemma unregistered_start_returns_table :
  ("A" ∉ nodes new_graph)
  ∧ dijkstra new_graph "A"
    = Some (Ok {["A" := Finite 0]}, mkGraph {["A" := ∅]} ∅).
Proof.
  split; [decide_by_compute|].
  vm_compute. reflexivity.
Qed.

(** C3, as the code has it.  A negative weight is stored like any other:
    after [add_edge(u, v, w)] both [adjacency[u][v]] and [adjacency[v][u]]
    hold [w]. *)
Theorem add_edge_negative_stored g u v w :
  w < 0 →
  weight (add_edge g u v w) u v = Some w ∧ weight (add_edge g u v w) v u = Some w.
Proof.
  intros _. rewrite !weight_add_edge. split; rewrite decide_True; auto.
Qed.

Lemma add_edge_negative_stored_witness :
  weight (add_edge new_graph "A" "B" (-1)) "A" "B" = Some (-1)
  ∧ weight (add_edge new_graph "A" "B" (-1)) "B" "A" = Some (-1).
Proof. apply (add_edge_negative_stored new_graph "A" "B" (-1)). lia. Defined.

(** C3, as stated, fails: [add_edge("A", "B", -1)] changes the adjacency
    data of the empty graph. *)
Lemma add_edge_negative_changes_graph :
  edges (add_edge new_graph "A" "B" (-1)) ≠ edges new_graph.
Proof.
  intros Heq. apply (f_equal (λ e, e !! "A")) in Heq. vm_compute in Heq. done.
Qed.

(** C4, as the code has it.  [add_edge(u, v, w)] makes [u] and [v] keys of
    the adjacency map and leaves the set of registered vertices as it
    was. *)
Theorem add_edge_keys g u v w :
  u ∈ dom (edges (add_edge g u v w)) ∧ v ∈ dom (edges (add_edge g u v w))
  ∧ nodes (add_edge g u v w) = nodes g.
Proof.
  split; [|split; [|done]]; apply elem_of_dom; simpl.
  - apply set_weight_keys, set_weight_key.
  - apply set_weight_key.
Qed.

(** C4, as stated, fails: after [add_edge("A", "B", 1)] on the empty graph
    neither endpoint is registered. *)
Lemma add_edge_does_not_register :
  ("A" ∉ nodes (add_edge new_graph "A" "B" 1))
  ∧ ("B" ∉ nodes (add_edge new_graph "A" "B" 1)).
Proof. split; decide_by_compute. Qed.

(** C5, as the code has it.  A query leaves the registered vertices and
    every existing adjacency record as they were; all it can do to the
    graph is to add empty adjacency records under new keys. *)
Theorem dijkstra_frame g start r g' :
  dijkstra g start = Some (r, g') →
  nodes g' = nodes g
  ∧ (∀ u record, edges g !! u = Some record → edges g' !! u = Some record)
  ∧ (∀ u record, edges g' !! u = Some record →
       edges g !! u = Some record ∨ (edges g !! u = None ∧ record = ∅))
  ∧ (∀ u v, weight g' u v = weight g u v).
Proof.
  intros Hgrown%while_heap_grown.
  pose proof (grown_same_adjacency _ _ Hgrown) as Hsame.
  destruct Hgrown as [Hnodes Hedges].
  split; [done|]. split; [|split].
  - intros u record Hu. destruct (Hedges u) as [->|[? _]]; congruence.
  - intros u record Hu. destruct (Hedges u) as [<-|[? ?]]; [by left|].
    right. split; congruence.
  - intros u v. by apply same_adjacency_weight.
Qed.

Lemma dijkstra_frame_witness :
  nodes (mkGraph {["A" := ∅]} {["A"]}) = nodes lone_graph
  ∧ (∀ u record, edges lone_graph !! u = Some record →
       edges (mkGraph {["A" := ∅]} {["A"]}) !! u = Some record)
  ∧ (∀ u record, edges (mkGraph {["A" := ∅]} {["A"]}) !! u = Some record →
       edges lone_graph !! u = Some record
       ∨ (edges lone_graph !! u = None ∧ record = ∅))
  ∧ (∀ u v, weight (mkGraph {["A" := ∅]} {["A"]}) u v = weight lone_graph u v).
Proof.
  apply (dijkstra_frame lone_graph "A" (Ok {["A" := Finite 0]})).
  vm_compute. reflexivity.
Defined.

(** C5, as stated, fails: the query on the graph with the single vertex
    ["A"] and no edge adds the key ["A"] to the adjacency map. *)
Lemma dijkstra_adds_record :
  dijkstra lone_graph "A"
  = Some (Ok {["A" := Finite 0]}, mkGraph {["A" := ∅]} {["A"]})
  ∧ dom (edges (mkGraph {["A" := ∅]} {["A"]})) ≠ dom (edges lone_graph).
Proof.
  split; [vm_compute; reflexivity|].
  intros Heq. apply (f_equal (λ X : gset string, bool_decide ("A" ∈ X))) in Heq.
  vm_compute in Heq. done.
Qed.

(** C6. [add_edge(u, v, w)] stores [w] under both [adjacency[u][v]] and
    [adjacency[v][u]], and edge symmetry holds of the new graph and is kept
    by [add_node], [add_edge], [get_neighbors] and the query. *)
Theorem edge_symmetry_invariant g :
  (∀ u v w, weight (add_edge g u v w) u v = Some w
            ∧ weight (add_edge g u v w) v u = Some w)
  ∧ symmetric new_graph
  ∧ (symmetric g →
     (∀ node, symmetric (add_node g node))
     ∧ (∀ u v w, symmetric (add_edge g u v w))
     ∧ (∀ node, symmetric (get_neighbors g node).2)
     ∧ (∀ start r g', dijkstra g start = Some (r, g') → symmetric g')).
Proof.
  split; [|split].
  - intros u v w. rewrite !weight_add_edge. split; rewrite decide_True; auto.
  - intros u v w. unfold weight. simpl. by rewrite lookup_empty.
  - intros Hsym. split; [|split; [|split]].
    + intros node. exact Hsym.
    + intros u v w. by apply symmetric_add_edge.
    + intros node. apply (symmetric_same_adjacency g); [|done].
      apply same_adjacency_get_neighbors, same_adjacency_refl.
    + intros start r g' Hrun%while_heap_grown.
      apply (symmetric_same_adjacency g); [|done]. by apply grown_same_adjacency.
Qed.

Lemma edge_symmetry_invariant_witness :
  symmetric new_graph ∧ symmetric (add_edge new_graph "A" "B" 4).
Proof.
  pose proof (edge_symmetry_invariant new_graph) as (_ & Hnew & Hkeep).
  split; [exact Hnew|]. apply (Hkeep Hnew).
Defined.

(** C7. Between a state of the main loop and any state that the loop
    reaches from it (after one pass, or several), no table value has
    increased, and the table has the same keys. *)
Theorem relaxation_monotone g l g' l' :
  steps g l g' l' → table_le (distances l') (distances l).
Proof.
  induction 1 as [|g1 l1 g2 l2 _ IH Hbody]; [apply table_le_refl|].
  eapply table_le_trans; [|exact IH]. by eapply loop_body_table_le.
Qed.

Lemma relaxation_monotone_witness :
  table_le (distances pair_locals1) (distances (init_locals pair_graph "A")).
Proof.
  apply (relaxation_monotone pair_graph (init_locals pair_graph "A")
           pair_graph pair_locals1).
  eapply steps_next; [apply steps_here|]. vm_compute. reflexivity.
Defined.

(** C8. A query on a graph with a registered start vertex has an outcome,
    and the query repeated on the graph as the first one left it has the
    same outcome. *)
Theorem dijkstra_repeatable g start :
  start ∈ nodes g →
  ∃ r g1 g2, dijkstra g start = Some (r, g1) ∧ dijkstra g1 start = Some (r, g2).
Proof.
  intros _.
  destruct (dijkstra_terminates g start) as (r & g1 & Hrun).
  destruct (dijkstra_terminates g1 start) as (r1 & g2 & Hrun1).
  exists r, g1, g2. split; [done|]. rewrite Hrun1. do 2 f_equal.
  pose proof (while_heap_grown _ _ _ _ _ Hrun) as Hgrown.
  unfold dijkstra in Hrun, Hrun1.
  rewrite (init_locals_nodes g g1 start) in Hrun1 by apply Hgrown.
  set (l := init_locals g start) in *.
  set (fuel := (S (measure g l) + S (measure g1 l))%nat).
  apply (while_heap_more_fuel _ fuel) in Hrun; [|lia].
  apply (while_heap_more_fuel _ fuel) in Hrun1; [|lia].
  pose proof (while_heap_same fuel g g1 l (grown_same_adjacency _ _ Hgrown)) as Heq.
  rewrite Hrun, Hrun1 in Heq. simpl in Heq. congruence.
Qed.

Lemma dijkstra_repeatable_witness :
  ∃ r g1 g2,
    dijkstra main_graph "A" = Some (r, g1) ∧ dijkstra g1 "A" = Some (r, g2).
Proof.
  apply (dijkstra_repeatable main_graph "A").
  decide_by_compute.
Defined.

(** C9. On the graph of [main], with the vertices A to E and the edges
    (A,B,4) (A,C,2) (B,C,1) (B,D,5) (C,D,8) (C,E,10) (D,E,2), the query
    from A returns A=0, B=3, C=2, D=8, E=10. *)
Theorem dijkstra_main_example :
  fst <$> dijkstra main_graph "A"
  = Some (Ok (list_to_map [("A", Finite 0); ("B", Finite 3); ("C", Finite 2);
                           ("D", Finite 8); ("E", Finite 10)])).
Proof. vm_compute. reflexivity. Qed.

(** C10. When some vertex that is not registered is reachable from a
    registered start vertex, the query returns no table: it raises
    [KeyError], on a vertex that is reachable from the start and is not
    registered. *)
Theorem dijkstra_unregistered_endpoint_KeyError g start x :
  start ∈ nodes g → x ∉ nodes g → reachable g start x →
  ∃ key g',
    dijkstra g start = Some (Raise (KeyError key), g')
    ∧ (key ∉ nodes g) ∧ reachable g start key.
Proof.
  intros Hstart Hx Hreach.
  assert (∀ v, distances (init_locals g start) !! v = None → v ∉ nodes g) as Hnone.
  { intros v. simpl. destruct (decide (start = v)) as [<-|Hne].
    - by rewrite lookup_insert_eq.
    - rewrite lookup_insert_ne by done. by intros ?%lookup_gset_to_gmap_None. }
  destruct (dijkstra_terminates g start) as (r & g' & Hrun).
  pose proof (while_heap_reach g start
                (S (measure g (init_locals g start))) g (init_locals g start) r g'
                (reach_inv_init g start) (same_adjacency_refl g) Hrun) as Hout.
  destruct r as [table|[key]].
  - destruct Hout as [Hle Hall]. destruct (Hall x Hreach) as [d Hd].
    exfalso. pose proof (Hle x) as Hlex. rewrite Hd in Hlex.
    destruct (distances (init_locals g start) !! x) as [d0|] eqn:Hinit; [|done].
    simpl in Hinit. destruct (decide (start = x)) as [<-|Hne]; [done|].
    rewrite lookup_insert_ne in Hinit by done.
    by apply lookup_gset_to_gmap_Some in Hinit as [? _].
  - destruct Hout as [Hkey Hmiss]. exists key, g'.
    split; [done|]. split; [by apply Hnone|done].
Qed.

Lemma dijkstra_unregistered_endpoint_KeyError_witness :
  ∃ key g',
    dijkstra dangling_graph "A" = Some (Raise (KeyError key), g')
    ∧ (key ∉ nodes dangling_graph) ∧ reachable dangling_graph "A" key.
Proof.
  apply (dijkstra_unregistered_endpoint_KeyError dangling_graph "A" "B").
  - decide_by_compute.
  - decide_by_compute.
  - exists (0 + 1). eapply path_step; [apply path_here|]. vm_compute. reflexivity.
Defined.

(** * Further properties of the graph and of the query *)

(** ** Runs of the loop as sequences of passes *)

Lemma loop_body_Return g l table g' :
  loop_body g l = (Return table, g') →
  table = distances l ∧ heap l = [] ∧ g' = g.
Proof.
  unfold loop_body.
  destruct (heappop (heap l)) as [[[cd cur] h1]|] eqn:Hpop.
  - case_decide; [done|]. destruct (get_neighbors g cur) as [record g1].
    by destruct (relax _ _ _ _ _) as [[ds1 h2]|e].
  - intros [= <- <-]. by apply heappop_None in Hpop.
Qed.

Lemma steps_first g l g1 l1 g2 l2 :
  loop_body g l = (Continue l1, g1) → steps g1 l1 g2 l2 → steps g l g2 l2.
Proof.
  intros Hbody. induction 1 as [|g3 l3 g4 l4 _ IH Hnext].
  - eapply steps_next; [apply steps_here|done].
  - by eapply steps_next.
Qed.

(** A run that returns a table went through finitely many passes and found
    the heap empty. *)
Lemma while_heap_steps fuel : ∀ g l table g',
  while_heap fuel g l = Some (Ok table, g') →
  ∃ l_end, steps g l g' l_end ∧ distances l_end = table ∧ heap l_end = [].
Proof.
  induction fuel as [|fuel IH]; intros g l table g'; simpl; [done|].
  destruct (loop_body g l) as [[table1|l1|e] g1] eqn:Hbody; [| |done].
  - apply loop_body_Return in Hbody as (-> & Hempty & ->). intros [= <- <-].
    exists l. split; [apply steps_here|done].
  - intros (l_end & Hsteps & Htable & Hempty)%IH.
    exists l_end. split; [by eapply steps_first|done].
Qed.

Lemma steps_same_adjacency g l g' l' :
  steps g l g' l' → same_adjacency g g'.
Proof.
  induction 1 as [|g1 l1 g2 l2 _ IH Hbody]; [done|].
  intros u. rewrite <- (IH u).
  pose proof (loop_body_grown g1 l1) as Hgrown. rewrite Hbody in Hgrown.
  by apply grown_same_adjacency.
Qed.

(** ** Table values are weights of walks, whatever the weights *)

Lemma walk_inv_init g start :
  walk_inv g start (distances (init_locals g start)) (heap (init_locals g start)).
Proof.
  split; simpl.
  - intros v d. destruct (decide (start = v)) as [<-|Hne].
    + rewrite lookup_insert_eq. intros [= <-]. constructor.
    + rewrite lookup_insert_ne by done. by intros [_ ?]%lookup_gset_to_gmap_Some.
  - intros d v [[= -> ->]|[]%elem_of_nil]%elem_of_cons. constructor.
Qed.

Lemma loop_body_walk g start g1 l l' g' :
  walk_inv g start (distances l) (heap l) → same_adjacency g g1 →
  loop_body g1 l = (Continue l', g') →
  walk_inv g start (distances l') (heap l').
Proof.
  intros [Hds Hheap] Hsame. unfold loop_body.
  destruct (heappop (heap l)) as [[[cd cur] h1]|] eqn:Hpop; [|done].
  assert (∀ d v, (d, v) ∈ h1 → path g start v d) as Hheap1.
  { intros d v Hin. apply Hheap, (heappop_elem_of _ _ _ _ Hpop). by right. }
  case_decide as Hvis.
  { intros [= <- <-]. by split. }
  assert (path g start cur cd) as Hcur.
  { apply Hheap, (heappop_elem_of _ _ _ _ Hpop). by left. }
  destruct (get_neighbors g1 cur) as [record g2] eqn:Hget.
  destruct (get_neighbors_items _ _ _ _ _ Hsame Hget) as [_ Hitems].
  destruct (relax _ _ _ _ _) as [[ds1 h2]|e] eqn:Hrelax; [|done].
  intros [= <- <-]. simpl. revert Hrelax.
  apply (relax_preserves (λ ds h, walk_inv g start ds h)); [|by split].
  intros ds h v w old Hw%Hitems _ _ _ [Hds' Hheap'].
  assert (path g start v (cd + w)) as Hv by (by econstructor).
  split.
  - intros x d. destruct (decide (v = x)) as [<-|Hne].
    + rewrite lookup_insert_eq. by intros [= <-].
    + rewrite lookup_insert_ne by done. apply Hds'.
  - intros d x [[= -> ->]|Hin]%elem_of_cons; [done|by apply Hheap'].
Qed.

Lemma steps_walk g start l g' l' :
  walk_inv g start (distances l) (heap l) → steps g l g' l' →
  walk_inv g start (distances l') (heap l').
Proof.
  intros Hinv. induction 1 as [|g1 l1 g2 l2 Hsteps IH Hbody]; [done|].
  eapply loop_body_walk; [exact IH| |exact Hbody].
  by eapply steps_same_adjacency.
Qed.

(** ** The start vertex and the visited vertices *)

Lemma loop_body_visited g l l' g' x :
  loop_body g l = (Continue l', g') → x ∈ visited l →
  x ∈ visited l' ∧ distances l' !! x = distances l !! x.
Proof.
  unfold loop_body.
  destruct (heappop (heap l)) as [[[cd cur] h1]|]; [|done].
  case_decide.
  { by intros [= <- <-]. }
  destruct (get_neighbors g cur) as [record g1].
  destruct (relax _ _ _ _ _) as [[ds1 h2]|e] eqn:Hrelax; [|done].
  intros [= <- <-] Hx. simpl.
  assert (x ∈ {[cur]} ∪ visited l) as Hx' by (by apply elem_of_union_r).
  split; [done|]. by eapply relax_visited.
Qed.

Lemma loop_body_start_settled g start l l' g' :
  start_settled start l → loop_body g l = (Continue l', g') →
  start_settled start l'.
Proof.
  intros [Hzero [Hvis|[Hheap Hempty]]] Hbody.
  - destruct (loop_body_visited _ _ _ _ start Hbody Hvis) as [Hvis' Heq].
    split; [congruence|by left].
  - revert Hbody. unfold loop_body. rewrite Hheap, Hempty. simpl.
    rewrite decide_False by apply not_elem_of_empty.
    destruct (get_neighbors g start) as [record g1].
    destruct (relax _ _ _ _ _) as [[ds1 h2]|e] eqn:Hrelax; [|done].
    intros [= <- <-]. simpl.
    assert (start ∈ ({[start]} ∪ ∅ : gset string)) as Hin.
    { apply elem_of_union_l. by apply elem_of_singleton. }
    split; simpl; [|by left].
    by rewrite (relax_visited _ _ _ _ _ _ _ start Hrelax Hin).
Qed.

Lemma start_settled_init g start : start_settled start (init_locals g start).
Proof. split; simpl; [apply lookup_insert_eq|by right]. Qed.

Lemma init_locals_lookup g start v :
  is_Some (distances (init_locals g start) !! v) ↔ v = start ∨ v ∈ nodes g.
Proof.
  simpl. destruct (decide (start = v)) as [<-|Hne].
  - rewrite lookup_insert_eq. split; [by left|by eexists].
  - rewrite lookup_insert_ne by done. split.
    + intros [d [Hv _]%lookup_gset_to_gmap_Some]. by right.
    + intros [->|Hv]; [done|]. exists Infinity. by apply lookup_gset_to_gmap_Some.
Qed.

Lemma reachable_registered g start v :
  endpoints_registered g → start ∈ nodes g → reachable g start v → v ∈ nodes g.
Proof.
  intros Hends Hstart [d Hp]. induction Hp as [|u v w d _ _ Hw]; [done|].
  by apply (Hends u v w).
Qed.

Lemma dijkstra_finite_reached g start table g' :
  dijkstra g start = Some (Ok table, g') →
  ∀ v, reachable g start v → ∃ d, table !! v = Some (Finite d).
Proof.
  intros Hrun.
  by destruct (while_heap_reach g start
                 (S (measure g (init_locals g start))) g (init_locals g start) _ g'
                 (reach_inv_init g start) (same_adjacency_refl g) Hrun) as [_ Hall].
Qed.

(** X1. The loop ends on every graph, whatever the weights and whichever
    vertices are registered: any bound above the length of the initial
    heap plus the number of adjacency entries is enough passes, and the
    outcome is the one of the query. *)
Theorem dijkstra_loop_bound g start fuel :
  (measure g (init_locals g start) < fuel)%nat →
  while_heap fuel g (init_locals g start) = dijkstra g start
  ∧ ∃ r g', dijkstra g start = Some (r, g').
Proof.
  intros Hfuel. destruct (dijkstra_terminates g start) as (r & g' & Hrun).
  split; [|by eauto]. rewrite Hrun.
  apply (while_heap_more_fuel _ fuel) in Hrun; [done|lia].
Qed.

Lemma dijkstra_loop_bound_witness :
  while_heap 16 main_graph (init_locals main_graph "A") = dijkstra main_graph "A"
  ∧ ∃ r g', dijkstra main_graph "A" = Some (r, g').
Proof. apply (dijkstra_loop_bound main_graph "A" 16). vm_compute. lia. Defined.

(** X2. The query returns a table exactly when every vertex reachable
    from the start is registered or is the start itself; otherwise it
    raises [KeyError].  Weights play no part in this. *)
Theorem dijkstra_returns_iff g start :
  (∃ table g', dijkstra g start = Some (Ok table, g'))
  ↔ (∀ v, reachable g start v → v ∈ nodes g ∨ v = start).
Proof.
  destruct (dijkstra_terminates g start) as (r & g' & Hrun).
  pose proof (while_heap_reach g start
                (S (measure g (init_locals g start))) g (init_locals g start) r g'
                (reach_inv_init g start) (same_adjacency_refl g) Hrun) as Hout.
  split.
  - intros (table & g1 & Hrun1) v Hv.
    rewrite Hrun in Hrun1. injection Hrun1 as -> ->.
    destruct Hout as [Hle Hall]. destruct (Hall v Hv) as [d Hd].
    assert (is_Some (table !! v)) as Hkey by (by eexists).
    apply (table_le_is_Some _ _ v Hle), init_locals_lookup in Hkey. tauto.
  - intros Hreg. destruct r as [table|[key]]; [by eauto|].
    destruct Hout as [Hkey Hmiss]. exfalso.
    assert (is_Some (distances (init_locals g start) !! key)) as [d Hd].
    { apply init_locals_lookup. destruct (Hreg key Hkey); auto. }
    congruence.
Qed.

Lemma dijkstra_returns_iff_witness :
  ∃ table g', dijkstra main_graph "A" = Some (Ok table, g').
Proof.
  apply (dijkstra_returns_iff main_graph "A"). intros v Hv. left.
  apply (reachable_registered main_graph "A"); [|decide_by_compute|done].
  apply endpoints_registered_check. decide_by_compute.
Defined.

(** X3. In a returned table, whatever the weights, a value is finite
    exactly for the vertices reachable from the start, a finite value is
    the total weight of some walk from the start to the vertex, and a
    registered vertex that no walk reaches keeps the value infinity. *)
Theorem dijkstra_finite_iff_reachable g start table g' :
  dijkstra g start = Some (Ok table, g') →
  (∀ v d, table !! v = Some (Finite d) → path g start v d)
  ∧ (∀ v, (∃ d, table !! v = Some (Finite d)) ↔ reachable g start v)
  ∧ (∀ v, v ∈ nodes g → ¬ reachable g start v → table !! v = Some Infinity).
Proof.
  intros Hrun.
  pose proof (while_heap_reach g start
                (S (measure g (init_locals g start))) g (init_locals g start) _ g'
                (reach_inv_init g start) (same_adjacency_refl g) Hrun) as [Hle Hall].
  destruct (while_heap_steps _ _ _ _ _ Hrun) as (l_end & Hsteps & <- & _).
  destruct (steps_walk g start _ _ _ (walk_inv_init g start) Hsteps) as [Hwalk _].
  split; [done|]. split.
  - intros v. split; [|by apply Hall]. intros [d Hd]. exists d. by apply Hwalk.
  - intros v Hv Hnot.
    assert (is_Some (distances l_end !! v)) as [[d|] Hd].
    { apply (table_le_is_Some _ _ v Hle), init_locals_lookup. by right. }
    + destruct Hnot. exists d. by apply Hwalk.
    + done.
Qed.

Lemma dijkstra_finite_iff_reachable_witness :
  (∀ v d, ({["A" := Finite 0]} : gmap string dist) !! v = Some (Finite d) →
          path lone_graph "A" v d)
  ∧ (∀ v, (∃ d, ({["A" := Finite 0]} : gmap string dist) !! v = Some (Finite d))
          ↔ reachable lone_graph "A" v)
  ∧ (∀ v, v ∈ nodes lone_graph → ¬ reachable lone_graph "A" v →
          ({["A" := Finite 0]} : gmap string dist) !! v = Some Infinity).
Proof.
  apply (dijkstra_finite_iff_reachable lone_graph "A" _
           (mkGraph {["A" := ∅]} {["A"]})).
  vm_compute. reflexivity.
Defined.

(** X4. The keys of a returned table are the registered vertices and the
    start vertex, no more and no less. *)
Theorem dijkstra_table_keys g start table g' :
  dijkstra g start = Some (Ok table, g') → dom table = {[start]} ∪ nodes g.
Proof.
  intros (l_end & Hsteps & <- & _)%while_heap_steps.
  assert (table_le (distances l_end) (distances (init_locals g start))) as Hle.
  { clear -Hsteps. induction Hsteps as [|g1 l1 g2 l2 _ IH Hbody]; [apply table_le_refl|].
    eapply table_le_trans; [|exact IH]. by eapply loop_body_table_le. }
  apply set_eq. intros v.
  rewrite elem_of_dom, (table_le_is_Some _ _ v Hle), init_locals_lookup.
  rewrite elem_of_union, elem_of_singleton. done.
Qed.

Lemma dijkstra_table_keys_witness :
  dom ({["A" := Finite 0]} : gmap string dist) = {["A"]} ∪ nodes lone_graph.
Proof.
  apply (dijkstra_table_keys lone_graph "A" _ (mkGraph {["A" := ∅]} {["A"]})).
  vm_compute. reflexivity.
Defined.

(** X5. A returned table maps the start vertex to 0, also when some
    weights are negative: the start is visited in the first pass and a
    visited vertex is not written to. *)
Theorem dijkstra_start_zero g start table g' :
  dijkstra g start = Some (Ok table, g') → table !! start = Some (Finite 0).
Proof.
  intros (l_end & Hsteps & <- & _)%while_heap_steps.
  assert (start_settled start l_end) as [Hzero _]; [|done].
  induction Hsteps as [|g1 l1 g2 l2 _ IH Hbody]; [apply start_settled_init|].
  by eapply loop_body_start_settled.
Qed.

Lemma dijkstra_start_zero_witness :
  ({["A" := Finite 0]} : gmap string dist) !! "A" = Some (Finite 0).
Proof.
  apply (dijkstra_start_zero lone_graph "A" _ (mkGraph {["A" := ∅]} {["A"]})).
  vm_compute. reflexivity.
Defined.

(** X6. Lazy deletion: the visited set only grows along the loop, and the
    table value of a vertex is not written to once the vertex is visited. *)
Theorem visited_values_final g l g' l' v :
  steps g l g' l' → v ∈ visited l →
  v ∈ visited l' ∧ distances l' !! v = distances l !! v.
Proof.
  intros Hsteps Hv. induction Hsteps as [|g1 l1 g2 l2 _ IH Hbody]; [done|].
  destruct IH as [Hv1 Heq].
  destruct (loop_body_visited _ _ _ _ v Hbody Hv1) as [Hv2 Heq2].
  split; [done|congruence].
Qed.

Lemma visited_values_final_witness :
  "A" ∈ visited pair_locals2
  ∧ distances pair_locals2 !! "A" = distances pair_locals1 !! "A".
Proof.
  apply (visited_values_final pair_graph pair_locals1 pair_graph pair_locals2 "A").
  - eapply steps_next; [apply steps_here|]. vm_compute. reflexivity.
  - decide_by_compute.
Defined.

(** ** Shortest distances whenever a table is returned *)

Lemma loop_body_opt_partial g start g1 l l' g' :
  nonneg_weights g →
  opt_inv g start (distances l) (heap l) (visited l) (visited l) →
  same_adjacency g g1 → loop_body g1 l = (Continue l', g') →
  opt_inv g start (distances l') (heap l') (visited l') (visited l').
Proof.
  intros Hnonneg Hinv Hsame. unfold loop_body.
  destruct (heappop (heap l)) as [[[cd cur] h1]|] eqn:Hpop; [|done].
  case_decide as Hvis.
  { intros [= <- <-]. simpl. by eapply opt_inv_pop_stale. }
  destruct (opt_inv_pop_fresh g start Hnonneg _ _ _ _ _ _ Hinv Hpop Hvis)
    as (Hcur & Hpath & Hinv1).
  destruct (get_neighbors g1 cur) as [record g2] eqn:Hget.
  destruct (get_neighbors_items _ _ _ _ _ Hsame Hget) as [_ Hitems].
  destruct (relax _ _ _ _ _) as [[ds1 h2]|e] eqn:Hrelax; [|done].
  intros [= <- <-]. simpl.
  apply (opt_inv_close _ _ _ _ _ _ cd); [| |done|].
  - revert Hrelax.
    apply (relax_preserves
             (λ ds h, opt_inv g start ds h ({[cur]} ∪ visited l) (visited l)));
      [|done].
    intros ds h v w old Hin%Hitems Hv Hold Hlt Hi. by eapply opt_inv_improve.
  - rewrite (relax_visited _ _ _ _ _ _ _ cur Hrelax); [done|].
    apply elem_of_union_l. by apply elem_of_singleton.
  - intros v w Hw%Hitems Hv. by eapply relax_relaxed.
Qed.

Lemma steps_opt g start l g' l' :
  nonneg_weights g →
  opt_inv g start (distances l) (heap l) (visited l) (visited l) →
  steps g l g' l' →
  opt_inv g start (distances l') (heap l') (visited l') (visited l').
Proof.
  intros Hnonneg Hinv. induction 1 as [|g1 l1 g2 l2 Hsteps IH Hbody]; [done|].
  eapply loop_body_opt_partial; [done|exact IH| |exact Hbody].
  by eapply steps_same_adjacency.
Qed.

Lemma shortest_unique g s v d d' : shortest g s v d → shortest g s v d' → d = d'.
Proof. intros [Hp Hmin] [Hp' Hmin']. pose proof (Hmin _ Hp'). pose proof (Hmin' _ Hp). lia. Qed.

(** On non-negative weights a returned table holds exactly the least walk
    weights. *)
Lemma dijkstra_table_shortest g start table g' :
  nonneg_weights g → dijkstra g start = Some (Ok table, g') →
  ∀ v d, table !! v = Some (Finite d) ↔ shortest g start v d.
Proof.
  intros Hnonneg (l_end & Hsteps & <- & Hempty)%while_heap_steps.
  pose proof (steps_opt g start _ _ _ Hnonneg (opt_inv_init g start) Hsteps) as Hinv.
  assert (∀ v p, path g start v p →
            ∃ d, distances l_end !! v = Some (Finite d) ∧ d ≤ p) as Hleast.
  { intros v p Hp.
    destruct (frontier g start Hnonneg _ _ _ _ _ Hinv Hp)
      as [[_ ?]|(x & d & Hx & Hd & _)]; [done|].
    pose proof (oi_queued _ _ _ _ _ _ Hinv x d Hx Hd) as Hin.
    rewrite Hempty in Hin. by apply elem_of_nil in Hin. }
  intros v d. split.
  - intros Hd. split; [by apply (oi_sound _ _ _ _ _ _ Hinv)|].
    intros p Hp. destruct (Hleast v p Hp) as (d2 & Hd2 & Hle). congruence.
  - intros [Hp Hmin]. destruct (Hleast v d Hp) as (d2 & Hd2 & Hle).
    pose proof (Hmin d2 (oi_sound _ _ _ _ _ _ Hinv v d2 Hd2)).
    replace d with d2 by lia. done.
Qed.

(** X7. On non-negative weights, whenever the query returns a table (the
    start need not be registered), a vertex has the finite value [d] in it
    exactly when [d] is the least total weight of a walk from the start to
    the vertex. *)
Theorem dijkstra_table_is_shortest g start table g' :
  nonneg_weights g → dijkstra g start = Some (Ok table, g') →
  ∀ v d, table !! v = Some (Finite d) ↔ shortest g start v d.
Proof. apply dijkstra_table_shortest. Qed.

Lemma dijkstra_table_is_shortest_witness :
  (<["B" := Finite 1]> (distances (init_locals pair_graph "A"))) !! "B"
  = Some (Finite 1) ↔ shortest pair_graph "A" "B" 1.
Proof.
  apply (dijkstra_table_is_shortest pair_graph "A" _ pair_graph).
  - apply nonneg_weights_check. decide_by_compute.
  - vm_compute. reflexivity.
Defined.

(** X8. On non-negative weights no edge can improve a returned table: if
    [u] has the finite value [du] and the edge from [u] to [v] weighs [w],
    then [v] has a finite value that is at most [du + w]. *)
Theorem dijkstra_table_relaxed g start table g' u v w du :
  nonneg_weights g → dijkstra g start = Some (Ok table, g') →
  table !! u = Some (Finite du) → weight g u v = Some w →
  ∃ dv, table !! v = Some (Finite dv) ∧ dv ≤ du + w.
Proof.
  intros Hnonneg Hrun Hu Hw.
  pose proof (dijkstra_table_shortest g start table g' Hnonneg Hrun) as Hiff.
  apply Hiff in Hu as [Hpu _].
  assert (path g start v (du + w)) as Hpv by (by econstructor).
  destruct (dijkstra_finite_reached g start table g' Hrun v) as [dv Hdv];
    [by eexists|].
  exists dv. split; [done|]. apply Hiff in Hdv as [_ Hmin]. by apply Hmin.
Qed.

Lemma dijkstra_table_relaxed_witness :
  ∃ dv, (<["B" := Finite 1]> (distances (init_locals pair_graph "A"))) !! "B"
        = Some (Finite dv) ∧ dv ≤ 0 + 1.
Proof.
  apply (dijkstra_table_relaxed pair_graph "A" _ pair_graph "A" "B" 1 0).
  - apply nonneg_weights_check. decide_by_compute.
  - vm_compute. reflexivity.
  - vm_compute. reflexivity.
  - vm_compute. reflexivity.
Defined.

(** ** Undirected graphs *)

Lemma path_app g a b c d1 d2 :
  path g a b d1 → path g b c d2 → path g a c (d1 + d2).
Proof.
  intros Hab. induction 1 as [|u v w d _ IH Hw].
  - by replace (d1 + 0) with d1 by lia.
  - replace (d1 + (d + w)) with (d1 + d + w) by lia. by econstructor.
Qed.

Lemma path_reverse g a b d : symmetric g → path g a b d → path g b a d.
Proof.
  intros Hsym. induction 1 as [|u v w d _ IH Hw]; [constructor|].
  replace (d + w) with (0 + w + d) by lia.
  eapply path_app; [|exact IH]. eapply path_step; [constructor|by apply Hsym].
Qed.

Lemma shortest_reverse g a b d : symmetric g → shortest g a b d → shortest g b a d.
Proof.
  intros Hsym [Hp Hmin]. split; [by apply path_reverse|].
  intros d' Hp'. by apply Hmin, path_reverse.
Qed.

Lemma symmetric_check g :
  map_Forall (λ u record,
      map_Forall (λ v w, weight g v u = Some w) record) (edges g) →
  symmetric g.
Proof.
  intros Hall u v w (record & Hu & Hv)%weight_Some.
  exact (Hall u record Hu v w Hv).
Qed.

(** X9. On a graph with symmetric edges and non-negative weights the
    computed distances are symmetric: the query from [a] gives [b] the
    finite value [d] exactly when the query from [b] gives [a] the value
    [d]. *)
Theorem dijkstra_symmetric_distance g a b ta ga tb gb d :
  symmetric g → nonneg_weights g →
  dijkstra g a = Some (Ok ta, ga) → dijkstra g b = Some (Ok tb, gb) →
  ta !! b = Some (Finite d) ↔ tb !! a = Some (Finite d).
Proof.
  intros Hsym Hnonneg Ha Hb.
  rewrite (dijkstra_table_shortest g a ta ga Hnonneg Ha).
  rewrite (dijkstra_table_shortest g b tb gb Hnonneg Hb).
  split; by apply shortest_reverse.
Qed.

Lemma dijkstra_symmetric_distance_witness :
  (<["B" := Finite 1]> (distances (init_locals pair_graph "A"))) !! "B"
  = Some (Finite 1)
  ↔ (<["A" := Finite 1]> (distances (init_locals pair_graph "B"))) !! "A"
    = Some (Finite 1).
Proof.
  apply (dijkstra_symmetric_distance pair_graph "A" "B" _ pair_graph _ pair_graph 1).
  - apply symmetric_check. decide_by_compute.
  - apply nonneg_weights_check. decide_by_compute.
  - vm_compute. reflexivity.
  - vm_compute. reflexivity.
Defined.

(** ** Building the graph *)

Lemma lookup_set_weight_record e u v w a :
  set_weight e u v w !! a
  = if decide (a = u) then Some (<[v := w]> (default ∅ (e !! u))) else e !! a.
Proof.
  unfold set_weight. case_decide as Ha.
  - subst a. apply lookup_insert_eq.
  - by apply lookup_insert_ne.
Qed.

Lemma graph_eq g g' : edges g = edges g' → nodes g = nodes g' → g = g'.
Proof. destruct g, g'. simpl. by intros -> ->. Qed.

(** X10. [add_edge(u, v, w)] writes the two entries [adjacency[u][v]] and
    [adjacency[v][u]] and no other: every other weight is as before. *)
Theorem add_edge_other_weights g u v w a b :
  ¬ ((a = u ∧ b = v) ∨ (a = v ∧ b = u)) →
  weight (add_edge g u v w) a b = weight g a b.
Proof. intros Hab. rewrite weight_add_edge. by rewrite decide_False. Qed.

Lemma add_edge_other_weights_witness :
  weight (add_edge pair_graph "B" "C" 7) "A" "B" = weight pair_graph "A" "B".
Proof.
  apply (add_edge_other_weights pair_graph "B" "C" 7 "A" "B").
  intros [[? _]|[? _]]; discriminate.
Defined.

(** X11. Adding an edge a second time replaces its weight: after
    [add_edge(u, v, w1)] and then [add_edge(u, v, w2)] or
    [add_edge(v, u, w2)], every weight is what [add_edge(u, v, w2)] alone
    gives. *)
Theorem add_edge_overwrites g u v w1 w2 a b :
  weight (add_edge (add_edge g u v w1) u v w2) a b
  = weight (add_edge g u v w2) a b
  ∧ weight (add_edge (add_edge g u v w1) v u w2) a b
    = weight (add_edge g u v w2) a b.
Proof.
  rewrite !weight_add_edge.
  split; repeat case_decide; try done; exfalso; tauto.
Qed.

(** X12. The order of the endpoints does not matter: [add_edge(u, v, w)]
    and [add_edge(v, u, w)] give the same graph. *)
Theorem add_edge_swap g u v w : add_edge g u v w = add_edge g v u w.
Proof.
  destruct (decide (u = v)) as [->|Hne]; [done|].
  apply graph_eq; [|done]. simpl. apply map_eq. intros a.
  rewrite !lookup_set_weight_record.
  rewrite (decide_False (P := v = u)) by done.
  rewrite (decide_False (P := u = v)) by done.
  destruct (decide (a = v)) as [->|Hav]; [|done].
  by rewrite decide_False by done.
Qed.

(** X13. Reading back what [add_edge] wrote: after [add_edge(u, v, w)],
    [get_neighbors(u)] returns a record that maps [v] to [w],
    [get_neighbors(v)] one that maps [u] to [w], and neither lookup changes
    the graph. *)
Theorem get_neighbors_add_edge g u v w :
  (get_neighbors (add_edge g u v w) u).1 !! v = Some w
  ∧ (get_neighbors (add_edge g u v w) v).1 !! u = Some w
  ∧ (get_neighbors (add_edge g u v w) u).2 = add_edge g u v w
  ∧ (get_neighbors (add_edge g u v w) v).2 = add_edge g u v w.
Proof.
  assert (∀ x, is_Some (edges (add_edge g u v w) !! x) →
               (get_neighbors (add_edge g u v w) x).2 = add_edge g u v w) as Hsame.
  { intros x [record Hx]. unfold get_neighbors. by rewrite Hx. }
  rewrite !get_neighbors_fst, <- !weight_neighbors, !weight_add_edge.
  rewrite !decide_True by auto.
  split; [done|]. split; [done|]. split; apply Hsame; simpl.
  - apply set_weight_keys, set_weight_key.
  - apply set_weight_key.
Qed.

(** X14. [get_neighbors(node)] returns the adjacency record of [node],
    the empty record when there is none; it changes no weight and no
    registration, and a second call returns the same record and leaves the
    graph as the first call left it. *)
Theorem get_neighbors_lookup g node :
  (∀ v, (get_neighbors g node).1 !! v = weight g node v)
  ∧ (edges g !! node = None → (get_neighbors g node).1 = ∅)
  ∧ (∀ u v, weight (get_neighbors g node).2 u v = weight g u v)
  ∧ nodes (get_neighbors g node).2 = nodes g
  ∧ get_neighbors (get_neighbors g node).2 node
    = ((get_neighbors g node).1, (get_neighbors g node).2).
Proof.
  split; [|split; [|split; [|split]]].
  - intros v. by rewrite get_neighbors_fst, weight_neighbors.
  - intros Hnone. unfold get_neighbors. by rewrite Hnone.
  - intros u v. apply same_adjacency_weight.
    apply same_adjacency_get_neighbors, same_adjacency_refl.
  - apply (grown_get_neighbors g node).
  - unfold get_neighbors. destruct (edges g !! node) as [record|] eqn:Hnode; simpl.
    + by rewrite Hnode.
    + by rewrite lookup_insert_eq.
Qed.

(** X15. [add_node] registers the vertex and touches nothing else: it is
    idempotent, the order of two registrations does not matter, and the
    adjacency data stay as they were. *)
Theorem add_node_registers g n m :
  n ∈ nodes (add_node g n)
  ∧ edges (add_node g n) = edges g
  ∧ add_node (add_node g n) n = add_node g n
  ∧ add_node (add_node g n) m = add_node (add_node g m) n.
Proof.
  split; [apply elem_of_union_l; by apply elem_of_singleton|].
  split; [done|]. split; apply graph_eq; simpl; try done.
  - apply set_eq. intros x. rewrite !elem_of_union. tauto.
  - apply set_eq. intros x. rewrite !elem_of_union. tauto.
Qed.



(** ** Edge cases of the query and repeated queries *)

(** X17. A start vertex without neighbours, registered or not: the query
    returns the table that maps the start to 0 and every other registered
    vertex to infinity, and all it does to the graph is the one lookup of
    the start's adjacency record. *)
Theorem dijkstra_isolated_start g start :
  neighbors g start = ∅ →
  dijkstra g start
  = Some (Ok (<[start := Finite 0]> (gset_to_gmap Infinity (nodes g))),
          (get_neighbors g start).2).
Proof.
  intros Hnone. unfold dijkstra, measure. simpl.
  unfold loop_body at 1. simpl.
  assert (map_to_list (get_neighbors g start).1 = []) as Hitems.
  { by rewrite get_neighbors_fst, Hnone, map_to_list_empty. }
  destruct (get_neighbors g start) as [record g1]. simpl in *.
  rewrite Hitems. simpl. by destruct (pending (edges g) ∅).
Qed.

Lemma dijkstra_isolated_start_witness :
  dijkstra lone_graph "A"
  = Some (Ok (<["A" := Finite 0]> (gset_to_gmap Infinity (nodes lone_graph))),
          (get_neighbors lone_graph "A").2).
Proof. apply (dijkstra_isolated_start lone_graph "A"). vm_compute. reflexivity. Defined.

Lemma get_neighbors_key g node : is_Some (edges (get_neighbors g node).2 !! node).
Proof.
  unfold get_neighbors. destruct (edges g !! node) as [record|] eqn:Hnode; simpl.
  - by rewrite Hnode.
  - rewrite lookup_insert_eq. by eexists.
Qed.

Lemma grown_keys g g' x :
  grown_by_empty_records g g' → is_Some (edges g !! x) → is_Some (edges g' !! x).
Proof. intros [_ H] Hx. destruct (H x) as [->|[Hnone _]]; [done|]. rewrite Hnone in Hx. by destruct Hx. Qed.

(** On a graph that has a record for every key of the graph a pass ends
    with, the pass does the same and changes nothing. *)
Lemma loop_body_stable g G l :
  same_adjacency g G →
  (∀ x, is_Some (edges (loop_body g l).2 !! x) → is_Some (edges G !! x)) →
  loop_body G l = ((loop_body g l).1, G).
Proof.
  intros Hsame. unfold loop_body.
  destruct (heappop (heap l)) as [[[cd cur] h1]|]; [|done].
  case_decide; [done|].
  pose proof (get_neighbors_fst g cur) as Hfst.
  pose proof (get_neighbors_key g cur) as Hkey.
  destruct (get_neighbors g cur) as [record g1]. simpl in Hfst, Hkey.
  intros Hkeys.
  assert (is_Some (edges G !! cur)) as [R HR].
  { apply Hkeys. by destruct (relax _ _ _ _ _) as [[ds1 h2]|e]. }
  assert (get_neighbors G cur = (record, G)) as ->.
  { unfold get_neighbors. rewrite HR. f_equal.
    rewrite Hfst, <- (Hsame cur). unfold neighbors. by rewrite HR. }
  by destruct (relax _ _ _ _ _) as [[ds1 h2]|e].
Qed.

Lemma while_heap_stable fuel : ∀ g l r gf G,
  while_heap fuel g l = Some (r, gf) → same_adjacency g G →
  (∀ x, is_Some (edges gf !! x) → is_Some (edges G !! x)) →
  while_heap fuel G l = Some (r, G).
Proof.
  induction fuel as [|fuel IH]; intros g l r gf G; simpl; [done|].
  intros Hrun Hsame Hkeys.
  pose proof (loop_body_grown g l) as Hgrown.
  assert (grown_by_empty_records (loop_body g l).2 gf) as Hrest.
  { destruct (loop_body g l) as [[table|l'|e] g1]; simpl.
    - injection Hrun as <- <-. apply grown_refl.
    - by eapply while_heap_grown.
    - injection Hrun as <- <-. apply grown_refl. }
  rewrite (loop_body_stable g G l Hsame).
  2:{ intros x Hx. by apply Hkeys, (grown_keys _ _ x Hrest). }
  destruct (loop_body g l) as [[table|l'|e] g1]; simpl in *.
  - by injection Hrun as <- <-.
  - eapply IH; [exact Hrun| |done].
    intros u. rewrite (Hsame u). symmetry. by apply grown_same_adjacency.
  - by injection Hrun as <- <-.
Qed.

(** X18. After a query, the same query changes the graph no more: run on
    the graph that the first query left, it has the same outcome and
    leaves that graph as it is. *)
Theorem dijkstra_second_query g start r g1 :
  dijkstra g start = Some (r, g1) → dijkstra g1 start = Some (r, g1).
Proof.
  intros Hrun. pose proof (while_heap_grown _ _ _ _ _ Hrun) as Hgrown.
  destruct (dijkstra_terminates g1 start) as (r2 & g2 & Hrun2).
  rewrite Hrun2. unfold dijkstra in Hrun, Hrun2.
  rewrite (init_locals_nodes g g1 start) in Hrun2 by apply Hgrown.
  set (l := init_locals g start) in *.
  set (fuel := (S (measure g l) + S (measure g1 l))%nat).
  apply (while_heap_more_fuel _ fuel) in Hrun; [|lia].
  apply (while_heap_more_fuel _ fuel) in Hrun2; [|lia].
  rewrite (while_heap_stable fuel g l r g1 g1 Hrun
             (grown_same_adjacency _ _ Hgrown) (λ x Hx, Hx)) in Hrun2.
  by injection Hrun2 as <- <-.
Qed.

Lemma dijkstra_second_query_witness :
  dijkstra (mkGraph {["A" := ∅]} {["A"]}) "A"
  = Some (Ok {["A" := Finite 0]}, mkGraph {["A" := ∅]} {["A"]}).
Proof.
  apply (dijkstra_second_query lone_graph "A"). vm_compute. reflexivity.
Defined.
